(** * Multi-platform video downloader: task store, executor, URL parser
      and format processor, embedded from the Python sources

    - [src/utils/url_parser.py]          → Module [URLParser]
    - [src/services/platforms/youtube.py] → Module [Formats]
    - [src/services/download_manager.py]  → Module [DownloadManager]

    Conventions of the embedding.
    - A Python [str] is a Rocq [string]; its characters stand for the code
      points 0..255, classified as Python classifies them.
    - A Python dict with a fixed key set is a record; a key that may be
      absent or hold [None] is an [option] field, and where the code
      tells the two apart the field says which it is.
    - [self.tasks] is a [gmap string Task].
    - [datetime.now()] and [time.time()] are readings handed to the
      operation that performs them; an ISO string written by
      [isoformat()] and read back with [fromisoformat()] is the reading
      itself, counted in microseconds.
    - Every [with self.tasks_lock:] block is one atomic step; a handler
      call made outside the lock is folded into the step of the locked
      block that follows it, since it does not touch the store. *)

From Stdlib Require Import ZArith NArith Ascii String List Bool Lia.
From Stdlib Require Import Sorting.Permutation Sorting.Sorted.
From Stdlib Require Import Numbers.DecimalString.
From stdpp Require Import gmap strings list fin_maps.

Local Open Scope Z_scope.

(* ===================================================================== *)
(** * Python string primitives *)
(* ===================================================================== *)

Module Str.

Definition code (c : ascii) : N := N_of_ascii c.

Definition between (lo hi : N) (c : ascii) : bool :=
  ((lo <=? code c) && (code c <=? hi))%N.

Definition is_digit (c : ascii) : bool := between 48 57 c.
Definition is_upper (c : ascii) : bool := between 65 90 c.
Definition is_lower (c : ascii) : bool := between 97 122 c.

(** [c.isalnum()] on the code points below 256. *)
Definition isalnum (c : ascii) : bool :=
  is_digit c || is_upper c || is_lower c
  || (code c =? 170)%N || between 178 179 c || (code c =? 181)%N
  || between 185 186 c || between 188 190 c
  || between 192 214 c || between 216 246 c || between 248 255 c.

(** [c.isspace()] on the code points below 256. *)
Definition isspace (c : ascii) : bool :=
  between 9 13 c || between 28 32 c || (code c =? 133)%N || (code c =? 160)%N.

(** [s.startswith(p)] *)
Fixpoint startswith (p s : string) : bool :=
  match p, s with
  | EmptyString, _ => true
  | String a p', String b s' => if Ascii.eqb a b then startswith p' s' else false
  | String _ _, EmptyString => false
  end.

(** [sub in s] *)
Fixpoint contains (sub s : string) : bool :=
  startswith sub s ||
  match s with
  | EmptyString => false
  | String _ s' => contains sub s'
  end.

(** [c in chars] for a single character [c]. *)
Fixpoint mem (c : ascii) (chars : string) : bool :=
  match chars with
  | EmptyString => false
  | String a rest => Ascii.eqb c a || mem c rest
  end.

(** [s.split(sep)] for a non-empty separator: left to right, matched
    separators do not overlap.  [skip] counts the characters of a
    separator just matched that are still to be passed over, [cur] is
    the current piece, reversed. *)
Fixpoint split_go (sep : string) (skip : nat) (cur : string) (s : string)
  : list string :=
  match s with
  | EmptyString => [String.rev cur]
  | String c s' =>
      match skip with
      | S k => split_go sep k cur s'
      | O =>
          if startswith sep s
          then String.rev cur :: split_go sep (Nat.pred (String.length sep)) EmptyString s'
          else split_go sep O (String c cur) s'
      end
  end.

Definition split (sep s : string) : list string := split_go sep O EmptyString s.

(** [sep.join(pieces)] *)
Fixpoint join (sep : string) (pieces : list string) : string :=
  match pieces with
  | [] => EmptyString
  | [p] => p
  | p :: rest => p +:+ sep +:+ join sep rest
  end.

(** [''.join(c for c in s if keep(c))] *)
Fixpoint filter (keep : ascii → bool) (s : string) : string :=
  match s with
  | EmptyString => EmptyString
  | String c s' => if keep c then String c (filter keep s') else filter keep s'
  end.

(** [s[:n]] *)
Fixpoint take (n : nat) (s : string) : string :=
  match n, s with
  | O, _ => EmptyString
  | S n', String c s' => String c (take n' s')
  | S _, EmptyString => EmptyString
  end.

(** [s[n:]] *)
Fixpoint drop (n : nat) (s : string) : string :=
  match n, s with
  | O, _ => s
  | S n', String _ s' => drop n' s'
  | S _, EmptyString => EmptyString
  end.

(** The first occurrence of [sep] in [s], if there is one: what precedes
    it and what follows it, as in [s.partition(sep)]. *)
Fixpoint partition (sep s : string) : option (string * string) :=
  if startswith sep s then Some (EmptyString, drop (String.length sep) s)
  else match s with
       | EmptyString => None
       | String c s' =>
           match partition sep s' with
           | Some (a, b) => Some (String c a, b)
           | None => None
           end
       end.

Fixpoint lstrip (s : string) : string :=
  match s with
  | EmptyString => EmptyString
  | String c s' => if isspace c then lstrip s' else s
  end.

(** [s.rstrip()]: a character is kept when something after it is kept,
    or when it is not white space. *)
Fixpoint rstrip (s : string) : string :=
  match s with
  | EmptyString => EmptyString
  | String c s' =>
      match rstrip s' with
      | EmptyString => if isspace c then EmptyString else String c EmptyString
      | r => String c r
      end
  end.

(** [s.strip()] *)
Definition strip (s : string) : string := rstrip (lstrip s).

Fixpoint all (p : ascii → bool) (s : string) : bool :=
  match s with
  | EmptyString => true
  | String c s' => p c && all p s'
  end.

(** [s.endswith(suf)]: some tail of [s] is [suf]. *)
Fixpoint endswith (suf s : string) : bool :=
  String.eqb suf s ||
  match s with
  | EmptyString => false
  | String _ s' => endswith suf s'
  end.

(** The characters of a string, in order. *)
Definition chars (s : string) : list ascii := list_ascii_of_string s.

(** [str(n)] for an [int]. *)
Definition of_Z (n : Z) : string := NilZero.string_of_int (Z.to_int n).

(** The characters [str(n)] is made of: a minus sign and decimal digits. *)
Definition sign_or_digit (c : ascii) : bool := is_digit c || Ascii.eqb c "-".

(** [l[-1]], for a list known to be non-empty. *)
Definition last_piece (l : list string) : string := List.last l EmptyString.

(** [l[0]], for a list known to be non-empty. *)
Definition first_piece (l : list string) : string := List.hd EmptyString l.

(** [l[-2:]] *)
Definition last_two (l : list string) : list string :=
  List.skipn (List.length l - 2)%nat l.

(** [c.lower()] on the code points below 256: the capital letters of
    ASCII and of the Latin-1 supplement move up by 32. *)
Definition lower_char (c : ascii) : ascii :=
  if is_upper c || between 192 214 c || between 216 222 c
  then ascii_of_N (code c + 32)
  else c.

(** [s.lower()] *)
Fixpoint lower (s : string) : string :=
  match s with
  | EmptyString => EmptyString
  | String c s' => String (lower_char c) (lower s')
  end.

(** [s.count(c)] for a single character [c]. *)
Fixpoint count (c : ascii) (s : string) : nat :=
  match s with
  | EmptyString => O
  | String a s' => ((if Ascii.eqb a c then 1 else 0) + count c s')%nat
  end.

End Str.

(* ===================================================================== *)
(** * The fragment of [re] that the patterns use *)
(* ===================================================================== *)

Module Re.

(** Repetition occurs in the patterns only over single-character
    classes, so the syntax ties [{n}], [+] and [*?] to a class. *)
Inductive regex : Type :=
| Lit (s : string)                 (* literal text *)
| Cls (p : ascii → bool)           (* one character of a class *)
| Seq (r1 r2 : regex)              (* r1 r2 *)
| Alt (r1 r2 : regex)              (* r1|r2, left alternative first *)
| Opt (r : regex)                  (* (?:r)?, greedy *)
| Rep (n : nat) (p : ascii → bool) (* [..]{n} *)
| Plus (p : ascii → bool)          (* [..]+, greedy *)
| LazyStar (p : ascii → bool)      (* .*?, lazy *)
| Group (r : regex).               (* capturing group 1 *)

Fixpoint strip_lit (l s : string) : option string :=
  match l, s with
  | EmptyString, _ => Some s
  | String a l', String b s' => if Ascii.eqb a b then strip_lit l' s' else None
  | String _ _, EmptyString => None
  end.

Section Backtracking.
Context {R : Type}.

Definition orelse (x : option R) (y : unit → option R) : option R :=
  match x with Some r => Some r | None => y tt end.

(** Longest run first, giving characters back one at a time. *)
Fixpoint star_greedy (p : ascii → bool) (s : string) (k : string → option R)
  : option R :=
  match s with
  | String c s' =>
      if p c then orelse (star_greedy p s' k) (λ _, k s) else k s
  | EmptyString => k s
  end.

(** Shortest run first. *)
Fixpoint star_lazy (p : ascii → bool) (s : string) (k : string → option R)
  : option R :=
  orelse (k s)
    (λ _, match s with
          | String c s' => if p c then star_lazy p s' k else None
          | EmptyString => None
          end).

Fixpoint rep (n : nat) (p : ascii → bool) (s : string) (k : string → option R)
  : option R :=
  match n with
  | O => k s
  | S n' =>
      match s with
      | String c s' => if p c then rep n' p s' k else None
      | EmptyString => None
      end
  end.
End Backtracking.

(** The text consumed between input [s] and its suffix [s']. *)
Definition consumed (s s' : string) : string :=
  Str.take (String.length s - String.length s')%nat s.

(** Backtracking matcher anchored at the head of [s]; [g] is what group
    1 holds so far and the continuation receives the rest of the input. *)
Fixpoint mt (r : regex) (s : string) (g : option string)
    (k : string → option string → option (option string))
  : option (option string) :=
  match r with
  | Lit l => match strip_lit l s with Some s' => k s' g | None => None end
  | Cls p =>
      match s with
      | String c s' => if p c then k s' g else None
      | EmptyString => None
      end
  | Seq r1 r2 => mt r1 s g (λ s' g', mt r2 s' g' k)
  | Alt r1 r2 => orelse (mt r1 s g k) (λ _, mt r2 s g k)
  | Opt r1 => orelse (mt r1 s g k) (λ _, k s g)
  | Rep n p => rep n p s (λ s', k s' g)
  | Plus p =>
      match s with
      | String c s' => if p c then star_greedy p s' (λ s'', k s'' g) else None
      | EmptyString => None
      end
  | LazyStar p => star_lazy p s (λ s', k s' g)
  | Group r1 => mt r1 s g (λ s' _, k s' (Some (consumed s s')))
  end.

(** [re.match(r, s)], reduced to [group(1)] of the match object. *)
Definition re_match (r : regex) (s : string) : option (option string) :=
  mt r s None (λ _ g, Some g).

(** [re.search(r, s)]: the first start position with a match. *)
Fixpoint search (r : regex) (s : string) : option (option string) :=
  orelse (re_match r s)
    (λ _, match s with
          | String _ s' => search r s'
          | EmptyString => None
          end).

(** Character classes of the patterns. *)
Definition any_but_newline (c : ascii) : bool := negb (Str.code c =? 10)%N.
Definition digit (c : ascii) : bool := Str.is_digit c.                (* \d *)
Definition word (c : ascii) : bool := Str.isalnum c || Ascii.eqb c "_". (* \w *)
Definition not_slash (c : ascii) : bool := negb (Ascii.eqb c "/").     (* [^\/] *)
Definition alnum_ascii (c : ascii) : bool :=                           (* [a-zA-Z0-9] *)
  Str.is_lower c || Str.is_upper c || Str.is_digit c.
Definition idchar (c : ascii) : bool :=                                (* [a-zA-Z0-9_-] *)
  alnum_ascii c || Ascii.eqb c "_" || Ascii.eqb c "-".




End Re.


(* ===================================================================== *)
(** * [src/utils/url_parser.py] *)
(* ===================================================================== *)

Module URLParser.
Import Re.

Local Infix "⋅" := Seq (at level 60, right associativity).

(** [(?:https?:\/\/)?] *)
Definition scheme_opt : regex := Opt (Lit "http" ⋅ Opt (Lit "s") ⋅ Lit "://").
(** [(?:www\.)?] *)
Definition www_opt : regex := Opt (Lit "www.").
(** [(?:www\.|web\.|m\.)?] *)
Definition www_web_m_opt : regex := Opt (Alt (Lit "www.") (Alt (Lit "web.") (Lit "m."))).

(** [URLParser.PATTERNS], in the insertion order of the dict. *)
Definition PATTERNS : list (string * list regex) :=
  [ ("youtube",
      [ scheme_opt ⋅ www_opt ⋅ Alt (Lit "youtube.com") (Lit "youtu.be") ⋅ Lit "/"
          ⋅ Opt (Lit "watch?v=") ⋅ Group (Rep 11 idchar)
      ; scheme_opt ⋅ www_opt ⋅ Lit "youtube.com/shorts/" ⋅ Group (Rep 11 idchar) ])
  ; ("facebook",
      [ scheme_opt ⋅ www_web_m_opt ⋅ Lit "facebook.com/"
          ⋅ Alt (Lit "watch/?v=")
               (Alt (Lit "video.php?v=")
                 (Alt (Lit "video/video.php?v=")
                   (Alt (LazyStar any_but_newline ⋅ Lit "/videos/")
                        (Lit "reel/"))))
          ⋅ Group (Plus digit)
      ; scheme_opt ⋅ www_web_m_opt ⋅ Lit "fb.watch/" ⋅ Group (Plus idchar) ])
  ; ("tiktok",
      [ scheme_opt ⋅ www_opt ⋅ Lit "tiktok.com/@" ⋅ Plus not_slash ⋅ Lit "/video/"
          ⋅ Group (Plus digit)
      ; scheme_opt ⋅ www_opt ⋅ Lit "vm.tiktok.com/" ⋅ Group (Plus idchar) ])
  ; ("instagram",
      [ scheme_opt ⋅ www_opt ⋅ Lit "instagram.com/" ⋅ Alt (Lit "p") (Lit "reel") ⋅ Lit "/"
          ⋅ Group (Plus idchar)
      ; scheme_opt ⋅ www_opt ⋅ Lit "instagram.com/tv/" ⋅ Group (Plus idchar) ])
  ; ("twitter",
      [ scheme_opt ⋅ www_opt ⋅ Lit "twitter.com/" ⋅ Plus word ⋅ Lit "/status/"
          ⋅ Group (Plus digit)
      ; scheme_opt ⋅ www_opt ⋅ Lit "x.com/" ⋅ Plus word ⋅ Lit "/status/"
          ⋅ Group (Plus digit) ])
  ; ("vimeo",
      [ scheme_opt ⋅ www_opt ⋅ Lit "vimeo.com/" ⋅ Group (Plus digit) ])
  ; ("dailymotion",
      [ scheme_opt ⋅ www_opt ⋅ Lit "dailymotion.com/video/" ⋅ Group (Plus alnum_ascii) ])
  ].

(** [PATTERNS.keys()] *)
Definition platform_names : list string := map fst PATTERNS.

(** The inner loop of [identify_platform]: the first pattern of one
    platform that is found in [url]. *)
Fixpoint first_pattern (patterns : list regex) (url : string)
  : option (option string) :=
  match patterns with
  | [] => None
  | r :: rest =>
      match search r url with
      | Some g => Some g
      | None => first_pattern rest url
      end
  end.

(** The outer loop: platforms in dict order. *)
Fixpoint first_platform (table : list (string * list regex)) (url : string)
  : option (string * option string) :=
  match table with
  | [] => None
  | (platform, patterns) :: rest =>
      match first_pattern patterns url with
      | Some g => Some (platform, g)
      | None => first_platform rest url
      end
  end.

(** [for platform in PATTERNS.keys(): if platform in base_domain] *)
Fixpoint platform_in_domain (names : list string) (base_domain : string)
  : option string :=
  match names with
  | [] => None
  | platform :: rest =>
      if Str.contains platform base_domain then Some platform
      else platform_in_domain rest base_domain
  end.

(** ['.'.join(domain.split('.')[-2:]) if len(domain.split('.')) > 1 else domain] *)
Definition base_domain_of (domain : string) : string :=
  let parts := Str.split "." domain in
  if (1 <? List.length parts)%nat then Str.join "." (Str.last_two parts) else domain.

Section Parser.

(** The two library calls the parser makes: [validators.url(url) is True]
    and [urlparse(url).netloc].  Both belong to third-party code, so the
    parser is embedded over any pair of such functions. *)
Variable validators_url : string → bool.
Variable urlparse_netloc : string → string.

Definition validate_url (url : string) : bool := validators_url url.

Definition identify_platform (url : string) : option string * option string :=
  if negb (validate_url url) then (None, None)
  else
    match first_platform PATTERNS url with
    | Some (platform, g) => (Some platform, g)
    | None =>
        let domain := urlparse_netloc url in
        let base_domain := base_domain_of domain in
        match platform_in_domain platform_names base_domain with
        | Some platform => (Some platform, None)
        | None => (Some "generic", None)
        end
    end.

(** [if not platform]: [None] and the empty string are both falsy. *)
Definition falsy (platform : option string) : bool :=
  match platform with
  | None => true
  | Some p => String.eqb p ""
  end.

Definition watch_url (video_id : string) : string :=
  "https://www.youtube.com/watch?v=" +:+ video_id.

(** [url.startswith(('http://', 'https://'))] *)
Definition has_protocol (url : string) : bool :=
  Str.startswith "http://" url || Str.startswith "https://" url.

(** [if not url.startswith(('http://', 'https://')): url = 'https://' + url] *)
Definition ensure_protocol (url : string) : string :=
  if negb (has_protocol url) then "https://" +:+ url else url.

(** In [url.split('/shorts/')[1]] the index exists because the branch is
    guarded by ['/shorts/' in url] (lemma [split_contains] below). *)
Definition normalize_url (url : string) (platform : option string) : string :=
  let platform := if falsy platform then fst (identify_platform url) else platform in
  if decide (platform = Some "youtube") then
    if Str.contains "youtu.be" url then
      let video_id := Str.first_piece (Str.split "?" (Str.last_piece (Str.split "/" url))) in
      watch_url video_id
    else if Str.contains "/shorts/" url then
      let video_id := Str.first_piece (Str.split "?" (nth 1 (Str.split "/shorts/" url) "")) in
      watch_url video_id
    else ensure_protocol url
  else ensure_protocol url.

End Parser.

(** Modelled from the spec: [validators.url] is third-party code, absent
    from the sources; the spec describes it as "structural URL validity
    (scheme + host), no network access".  This stand-in accepts a string
    that opens with [http://] or [https://], continues with a non-empty
    host and holds no white space.  It serves only to instantiate the
    theorems below at concrete inputs. *)
Definition validators_url_model (url : string) : bool :=
  let has_host rest :=
    match rest with
    | EmptyString => false
    | String c _ => negb (Str.mem c "/?#")
    end in
  Str.all (λ c, negb (Str.isspace c)) url &&
  match strip_lit "http://" url, strip_lit "https://" url with
  | Some rest, _ => has_host rest
  | None, Some rest => has_host rest
  | None, None => false
  end.

(** Modelled from the spec: [urllib.parse.urlparse(url).netloc] is
    standard-library code, absent from the sources: the text between the
    [//] that follows the scheme and the next [/], [?] or [#]; empty when
    there is no [scheme://]. *)
Fixpoint upto_delim (s : string) : string :=
  match s with
  | EmptyString => EmptyString
  | String c s' => if Str.mem c "/?#" then EmptyString else String c (upto_delim s')
  end.

Fixpoint after_scheme (s : string) : option string :=
  match s with
  | EmptyString => None
  | String c s' =>
      if Ascii.eqb c ":" then strip_lit "//" s'
      else if Re.alnum_ascii c || Str.mem c "+-." then after_scheme s'
      else None
  end.

Definition urlparse_netloc_model (url : string) : string :=
  match after_scheme url with
  | Some rest => upto_delim rest
  | None => EmptyString
  end.

End URLParser.


(* ===================================================================== *)
(** * [src/services/platforms/youtube.py]: the format processor *)
(* ===================================================================== *)

Module Formats.

(** One format dict as yt-dlp hands it over; numbers are integers.  The
    three keys that [_process_formats] reads with a default
    (['resolution'], ['format_note'], ['quality']) tell an absent key,
    [None], from a key that holds [None], [Some None]: [dict.get] applies
    its default only to the former.  The other keys are read with a plain
    [fmt.get(key)], which yields [None] in both cases, so one [option]
    suffices for them. *)
Record RawFormat := {
  raw_format_id : option string;
  raw_ext : option string;
  raw_resolution : option (option string);
  raw_fps : option Z;
  raw_vcodec : option string;
  raw_acodec : option string;
  raw_filesize : option Z;
  raw_format_note : option (option string);
  raw_quality : option (option Z);
  raw_tbr : option Z
}.

(** The [format_entry] dict built by [_process_formats]; every key is
    present, [None] is the Python value. *)
Record FormatEntry := {
  format_id : option string;
  ext : option string;
  resolution : option string;
  fps : option Z;
  vcodec : option string;
  acodec : option string;
  filesize : option Z;
  format_note : option string;
  quality : option Z;
  tbr : option Z;
  description : string
}.

(** Truthiness of [fmt.get(key)] for a string and for a number. *)
Definition truthy_str (v : option string) : bool :=
  match v with
  | Some s => negb (String.eqb s "")
  | None => false
  end.

Definition truthy_num (v : option Z) : bool :=
  match v with
  | Some n => negb (n =? 0)
  | None => false
  end.

(** [f"{filesize / (1024 * 1024):.1f}"]: the quotient by 2^20 is exact in
    binary floating point for sizes below 2^53 and the format rounds it
    to one decimal, ties to even. *)
Definition format_1f_mb (filesize : Z) : string :=
  let a := Z.abs filesize * 10 in
  let q := a / 1048576 in
  let r := a mod 1048576 in
  let tenths :=
    if 1048576 <? 2 * r then q + 1
    else if 2 * r =? 1048576 then (if Z.even q then q else q + 1)
    else q in
  (if filesize <? 0 then "-" else "")
    +:+ Str.of_Z (tenths / 10) +:+ "." +:+ Str.of_Z (tenths mod 10).

Definition part_if (cond : bool) (part : string) : list string :=
  if cond then [part] else [].

Definition _format_description (fmt : RawFormat) : string :=
  let get v := default "" v in
  let resolution := mjoin (raw_resolution fmt) in
  let format_note := mjoin (raw_format_note fmt) in
  Str.join " - "
    (part_if (truthy_str resolution
              && negb (String.eqb (get resolution) "audio only"))
             (get resolution)
     ++ part_if (truthy_str format_note
                 && negb (String.eqb (get format_note) "Default"))
                (get format_note)
     ++ part_if (truthy_str (raw_vcodec fmt)
                 && negb (String.eqb (get (raw_vcodec fmt)) "none"))
                ("Video: " +:+ get (raw_vcodec fmt))
     ++ part_if (truthy_str (raw_acodec fmt)
                 && negb (String.eqb (get (raw_acodec fmt)) "none"))
                ("Audio: " +:+ get (raw_acodec fmt))
     ++ part_if (truthy_str (raw_ext fmt)) ("." +:+ get (raw_ext fmt))
     ++ part_if (truthy_num (raw_filesize fmt))
                (format_1f_mb (default 0 (raw_filesize fmt)) +:+ " MB")).

(** The body of the loop for an entry that is kept. *)
Definition format_entry_of (fmt : RawFormat) : FormatEntry := {|
  format_id := raw_format_id fmt;
  ext := raw_ext fmt;
  resolution := default (Some "unknown") (raw_resolution fmt);
  fps := raw_fps fmt;
  vcodec := raw_vcodec fmt;
  acodec := raw_acodec fmt;
  filesize := raw_filesize fmt;
  format_note := default (Some "") (raw_format_note fmt);
  quality := default (Some 0) (raw_quality fmt);
  tbr := raw_tbr fmt;
  description := _format_description fmt
|}.

(** [for fmt in formats: if not fmt.get('format_id'): continue; ...append] *)
Fixpoint collect (formats : list RawFormat) : list FormatEntry :=
  match formats with
  | [] => []
  | fmt :: rest =>
      if negb (truthy_str (raw_format_id fmt)) then collect rest
      else format_entry_of fmt :: collect rest
  end.

(** [sorted(l, key=..., reverse=True)]: Python's sort is stable and
    [reverse=True] keeps the input order of equal keys.  Insertion from
    the right realises exactly that order: [x] goes in front of the first
    element whose key does not exceed its own. *)
Fixpoint insert_desc {A} (key : A → Z) (x : A) (l : list A) : list A :=
  match l with
  | [] => [x]
  | y :: l' => if key y <=? key x then x :: l else y :: insert_desc key x l'
  end.

Fixpoint sorted_reverse {A} (key : A → Z) (l : list A) : list A :=
  match l with
  | [] => []
  | x :: l' => insert_desc key x (sorted_reverse key l')
  end.

(** The sort key read off an entry whose key is a number. *)
Definition key_number (k : option Z) : Z := default 0 k.

Definition has_key {A} (key : A → option Z) (x : A) : bool :=
  match key x with
  | Some _ => true
  | None => false
  end.

(** [sorted(l, key=key, reverse=True)] when a key may be [None].  A list
    of fewer than two elements is returned as it is, without a
    comparison.  Otherwise every element takes part in a comparison, and
    a comparison with [None] on either side raises [TypeError]: the
    result [None] stands for that exception. *)
Definition sorted_reverse_keys {A} (key : A → option Z) (l : list A)
  : option (list A) :=
  if (List.length l <? 2)%nat then Some l
  else if forallb (has_key key) l
       then Some (sorted_reverse (λ x, key_number (key x)) l)
       else None.

(** [_process_formats]; [None] is the [TypeError] raised inside
    [sorted]. *)
Definition _process_formats (formats : list RawFormat) : option (list FormatEntry) :=
  let processed_formats := collect formats in
  sorted_reverse_keys quality processed_formats.

(** The raw list of the spec's scenario: entries that carry only an id
    and a quality. *)
Definition raw_of (id : string) (q : option Z) : RawFormat := {|
  raw_format_id := Some id; raw_ext := None; raw_resolution := None; raw_fps := None;
  raw_vcodec := None; raw_acodec := None; raw_filesize := None; raw_format_note := None;
  raw_quality := Some q; raw_tbr := None
|}.

Definition scenario_formats : list RawFormat :=
  [raw_of "a" (Some 5); raw_of "b" (Some 10); raw_of "c" (Some 10)].

(** Two entries with ids, the first with the key ['quality'] present and
    holding [None]. *)
Definition none_quality_formats : list RawFormat :=
  [raw_of "hls-1" None; raw_of "22" (Some 1)].

(** An entry has a format identifier when [fmt.get('format_id')] is
    truthy. *)
Definition has_format_id (fmt : RawFormat) : Prop := truthy_str (raw_format_id fmt) = true.

#[global] Instance has_format_id_dec fmt : Decision (has_format_id fmt).
Proof. unfold has_format_id. apply _. Defined.

End Formats.

(* ===================================================================== *)
(** * [src/services/download_manager.py] *)
(* ===================================================================== *)

Module DownloadManager.

(** The seven strings the manager ever writes under ['status']. *)
Inductive Status :=
| created | starting | extracting | downloading | completed | failed | cancelled.

#[global] Instance Status_eq_dec : EqDecision Status.
Proof. solve_decision. Defined.

(** A task dict.  ['title'] and ['thumbnail'] appear once extraction has
    succeeded. *)
Record Task := {
  id : string;
  url : string;
  platform : option string;
  format_id : option string;
  status : Status;
  progress : Z;
  created_at : Z;
  started_at : option Z;
  completed_at : option Z;
  file_path : option string;
  error : option string;
  title : option string;
  thumbnail : option string
}.

(** Item assignments [task[key] = v]. *)
Definition set_status (v : Status) (t : Task) : Task :=
  Build_Task (id t) (url t) (platform t) (format_id t) v (progress t) (created_at t)
    (started_at t) (completed_at t) (file_path t) (error t) (title t) (thumbnail t).
Definition set_progress (v : Z) (t : Task) : Task :=
  Build_Task (id t) (url t) (platform t) (format_id t) (status t) v (created_at t)
    (started_at t) (completed_at t) (file_path t) (error t) (title t) (thumbnail t).
Definition set_started_at (v : option Z) (t : Task) : Task :=
  Build_Task (id t) (url t) (platform t) (format_id t) (status t) (progress t) (created_at t)
    v (completed_at t) (file_path t) (error t) (title t) (thumbnail t).
Definition set_completed_at (v : option Z) (t : Task) : Task :=
  Build_Task (id t) (url t) (platform t) (format_id t) (status t) (progress t) (created_at t)
    (started_at t) v (file_path t) (error t) (title t) (thumbnail t).
Definition set_file_path (v : option string) (t : Task) : Task :=
  Build_Task (id t) (url t) (platform t) (format_id t) (status t) (progress t) (created_at t)
    (started_at t) (completed_at t) v (error t) (title t) (thumbnail t).
Definition set_error (v : option string) (t : Task) : Task :=
  Build_Task (id t) (url t) (platform t) (format_id t) (status t) (progress t) (created_at t)
    (started_at t) (completed_at t) (file_path t) v (title t) (thumbnail t).
Definition set_title (v : option string) (t : Task) : Task :=
  Build_Task (id t) (url t) (platform t) (format_id t) (status t) (progress t) (created_at t)
    (started_at t) (completed_at t) (file_path t) (error t) v (thumbnail t).
Definition set_thumbnail (v : option string) (t : Task) : Task :=
  Build_Task (id t) (url t) (platform t) (format_id t) (status t) (progress t) (created_at t)
    (started_at t) (completed_at t) (file_path t) (error t) (title t) v.

(** What a handler call can do: return a value or raise. *)
Inductive Outcome (A : Type) :=
| Returned (a : A)
| Raised (msg : string).
Arguments Returned {A} a.
Arguments Raised {A} msg.

(** The dict returned by [extract_info], by its ['success'] flag.
    [i_title] is [None] when the key is absent and [Some None] when it
    holds [None]; [i_error] is [None] when the key is absent. *)
Inductive ExtractResult :=
| InfoOk (i_title : option (option string)) (i_thumbnail : option string)
| InfoFail (i_error : option string).

(** The dict returned by [download]. *)
Inductive DownloadResult :=
| DlOk (r_file_path : string)
| DlFail (r_error : option string).

(** [BasePlatformHandler]: the two capabilities the executor calls. *)
Record Handler := {
  extract_info : string → Outcome ExtractResult;
  download : string → string → option string → Outcome DownloadResult
}.

(** Where an executor thread stands between two atomic steps, with the
    locals it carries. *)
Inductive Pc :=
| AtEntry
| AtExtract (url : string) (format_id : option string)
| AtDownload (url : string) (format_id : option string) (output_path : string)
| AtExcept (msg : string)
| Finished.

#[global] Instance Pc_eq_dec : EqDecision Pc.
Proof. solve_decision. Defined.

Record Thread := {
  th_task : string;
  th_handler : Handler;
  th_pc : Pc
}.

(** Calls made to handlers, in order, tagged with the task. *)
Inductive Call :=
| CallExtract (task_id url : string)
| CallDownload (task_id url output_path : string) (format_id : option string).

Record Manager := {
  download_dir : string;
  tasks : gmap string Task;
  threads : list Thread;
  calls : list Call
}.

Definition with_tasks (ts : gmap string Task) (m : Manager) : Manager :=
  {| download_dir := download_dir m; tasks := ts; threads := threads m; calls := calls m |}.

(** [DownloadManager(download_dir)] *)
Definition init (dir : string) : Manager :=
  {| download_dir := dir; tasks := ∅; threads := []; calls := [] |}.

(** [create_task]; [task_id] is the value [uuid.uuid4()] produced. *)
Definition create_task (task_id : string) (now : Z)
    (url : string) (platform format_id : option string) (m : Manager)
  : string * Manager :=
  let task := {|
    id := task_id; url := url; platform := platform; format_id := format_id;
    status := created; progress := 0; created_at := now;
    started_at := None; completed_at := None; file_path := None; error := None;
    title := None; thumbnail := None |} in
  (task_id, with_tasks (<[task_id := task]> (tasks m)) m).

(** [start_download].  The membership test and the locked block that
    follows it are taken as one step; the thread it starts is appended to
    [threads] at its entry point. *)
Definition start_download (now : Z) (task_id : string) (platform_handler : Handler)
    (m : Manager) : bool * Manager :=
  match tasks m !! task_id with
  | None => (false, m)
  | Some task =>
      let task := set_started_at (Some now) (set_status starting task) in
      let thread := {| th_task := task_id; th_handler := platform_handler; th_pc := AtEntry |} in
      (true,
       {| download_dir := download_dir m;
          tasks := <[task_id := task]> (tasks m);
          threads := threads m ++ [thread];
          calls := calls m |})
  end.

(** [get_task], [get_all_tasks] *)
Definition get_task (task_id : string) (m : Manager) : option Task := tasks m !! task_id.
Definition get_all_tasks (m : Manager) : list Task := (map_to_list (tasks m)).*2.

(** [cancel_task] *)
Definition cancel_task (now : Z) (task_id : string) (m : Manager) : bool * Manager :=
  match tasks m !! task_id with
  | Some task =>
      if bool_decide (status task ∈ [created; starting; extracting; downloading]) then
        let task := set_completed_at (Some now) (set_status cancelled task) in
        (true, with_tasks (<[task_id := task]> (tasks m)) m)
      else (false, m)
  | None => (false, m)
  end.

(** One round of the loop of [clean_old_tasks].  Readings are in
    microseconds, so [total_seconds() > max_age_hours * 3600] compares
    the difference with [max_age_hours * 3600 * 10^6]. *)
Definition clean_one (now max_age_hours : Z) (acc : gmap string Task * Z) (task_id : string)
  : gmap string Task * Z :=
  let '(ts, cleaned_count) := acc in
  match ts !! task_id with
  | None => acc
  | Some task =>
      if bool_decide (status task ∉ [completed; failed]) then acc
      else
        match completed_at task with
        | Some at_ =>
            if max_age_hours * 3600 * 1000000 <? now - at_
            then (delete task_id ts, cleaned_count + 1)
            else acc
        | None => acc
        end
  end.

(** [clean_old_tasks] *)
Definition clean_old_tasks (now max_age_hours : Z) (m : Manager) : Z * Manager :=
  let task_ids := (map_to_list (tasks m)).*1 in
  let '(ts, cleaned_count) := foldl (clean_one now max_age_hours) (tasks m, 0) task_ids in
  (cleaned_count, with_tasks ts m).

(** [os.path.join(a, b)] on POSIX. *)
Definition os_path_join (a b : string) : string :=
  if Str.startswith "/" b then b
  else if String.eqb a "" || Str.endswith "/" a then a +:+ b
  else a +:+ "/" +:+ b.

(** Lines 115-119: the file name derived from the extracted title;
    [timestamp] is [int(time.time())]. *)
Definition safe_char (c : ascii) : bool := Str.isalnum c || Str.mem c " ._-".

Definition clean_title (title : string) : string :=
  Str.take 50 (Str.strip (Str.filter safe_char title)).

Definition output_filename (title : string) (timestamp : Z) : string :=
  clean_title title +:+ "_" +:+ Str.of_Z timestamp +:+ ".mp4".

(** [str(e)] for the [KeyError] of [self.tasks[task_id]]. *)
Definition key_error (task_id : string) : string := "'" +:+ task_id +:+ "'".

(** One atomic step of [_download_thread] for the thread [th]: the code
    from its program point up to the end of the next locked block.  The
    result is the thread's new program point, the store and the handler
    calls made on the way. *)
Definition thread_step (now timestamp : Z) (dir : string) (th : Thread)
    (ts : gmap string Task) : Pc * gmap string Task * list Call :=
  let task_id := th_task th in
  let h := th_handler th in
  match th_pc th with
  | AtEntry =>
      match ts !! task_id with
      | None => (AtExcept (key_error task_id), ts, [])
      | Some task =>
          (AtExtract (url task) (format_id task),
           <[task_id := set_status extracting task]> ts, [])
      end
  | AtExtract url format_id =>
      let log := [CallExtract task_id url] in
      match extract_info h url with
      | Raised msg => (AtExcept msg, ts, log)
      | Returned (InfoFail i_error) =>
          match ts !! task_id with
          | None => (AtExcept (key_error task_id), ts, log)
          | Some task =>
              let task := set_status failed task in
              let task :=
                set_error (Some (default "Failed to extract video information" i_error)) task in
              let task := set_completed_at (Some now) task in
              (Finished, <[task_id := task]> ts, log)
          end
      | Returned (InfoOk i_title i_thumbnail) =>
          match default (Some "video") i_title with
          | None => (AtExcept "'NoneType' object is not iterable", ts, log)
          | Some title =>
              let filename := output_filename title timestamp in
              let output_path := os_path_join dir filename in
              match ts !! task_id with
              | None => (AtExcept (key_error task_id), ts, log)
              | Some task =>
                  let task := set_status downloading task in
                  let task := set_title (mjoin i_title) task in
                  let task := set_thumbnail i_thumbnail task in
                  (AtDownload url format_id output_path, <[task_id := task]> ts, log)
              end
          end
      end
  | AtDownload url format_id output_path =>
      let log := [CallDownload task_id url output_path format_id] in
      match download h url output_path format_id with
      | Raised msg => (AtExcept msg, ts, log)
      | Returned result =>
          match ts !! task_id with
          | None => (AtExcept (key_error task_id), ts, log)
          | Some task =>
              let task :=
                match result with
                | DlOk r_file_path =>
                    set_progress 100 (set_file_path (Some r_file_path) (set_status completed task))
                | DlFail r_error =>
                    set_error (Some (default "Download failed" r_error)) (set_status failed task)
                end in
              (Finished, <[task_id := set_completed_at (Some now) task]> ts, log)
          end
      end
  | AtExcept msg =>
      match ts !! task_id with
      | None => (Finished, ts, [])
      | Some task =>
          let task := set_completed_at (Some now) (set_error (Some msg) (set_status failed task)) in
          (Finished, <[task_id := task]> ts, [])
      end
  | Finished => (Finished, ts, [])
  end.

(** [_download_thread] run without interruption: the steps in sequence,
    all with the same clock readings. *)
Definition at_pc (pc : Pc) (th : Thread) : Thread :=
  {| th_task := th_task th; th_handler := th_handler th; th_pc := pc |}.

Fixpoint run_thread (fuel : nat) (now timestamp : Z) (dir : string) (th : Thread)
    (ts : gmap string Task) : Pc * gmap string Task * list Call :=
  match fuel with
  | O => (th_pc th, ts, [])
  | S fuel' =>
      let '(pc, ts1, log1) := thread_step now timestamp dir th ts in
      let '(pc', ts2, log2) := run_thread fuel' now timestamp dir (at_pc pc th) ts1 in
      (pc', ts2, log1 ++ log2)
  end.

Definition _download_thread (now timestamp : Z) (dir task_id : string)
    (platform_handler : Handler) (ts : gmap string Task) :=
  run_thread 4 now timestamp dir
    {| th_task := task_id; th_handler := platform_handler; th_pc := AtEntry |} ts.

(** What can happen to a manager: the public operations and the
    scheduling of one step of the [i]-th executor thread. *)
Inductive Event :=
| CreateTask (task_id : string) (now : Z) (url : string) (platform format_id : option string)
| StartDownload (now : Z) (task_id : string) (platform_handler : Handler)
| ThreadStep (i : nat) (now timestamp : Z)
| CancelTask (now : Z) (task_id : string)
| CleanOldTasks (now max_age_hours : Z).

Definition step (m : Manager) (e : Event) : Manager :=
  match e with
  | CreateTask task_id now url platform format_id =>
      (create_task task_id now url platform format_id m).2
  | StartDownload now task_id h => (start_download now task_id h m).2
  | ThreadStep i now timestamp =>
      match threads m !! i with
      | None => m
      | Some th =>
          let '(pc, ts, log) := thread_step now timestamp (download_dir m) th (tasks m) in
          {| download_dir := download_dir m;
             tasks := ts;
             threads := <[i := at_pc pc th]> (threads m);
             calls := calls m ++ log |}
      end
  | CancelTask now task_id => (cancel_task now task_id m).2
  | CleanOldTasks now max_age_hours => (clean_old_tasks now max_age_hours m).2
  end.

Definition run (m : Manager) (events : list Event) : Manager := foldl step m events.

(** Executor threads of a task that have not finished. *)
Definition active (task_id : string) (m : Manager) : list Thread :=
  filter (λ th, th_task th = task_id ∧ th_pc th ≠ Finished) (threads m).

Definition terminal (s : Status) : bool :=
  bool_decide (s ∈ [completed; failed; cancelled]).

(** The condition under which a round of [clean_old_tasks] deletes. *)
Definition expired (now max_age_hours : Z) (task : Task) : bool :=
  bool_decide (status task ∈ [completed; failed])
  && match completed_at task with
     | Some at_ => max_age_hours * 3600 * 1000000 <? now - at_
     | None => false
     end.

(** A handler whose two capabilities succeed, and the store reached by
    creating a task, starting it and letting its executor take its first
    step. *)
Definition ok_handler : Handler := {|
  extract_info := λ _, Returned (InfoOk (Some (Some "clip")) None);
  download := λ _ output_path _, Returned (DlOk output_path)
|}.

Definition extracting_store : Manager :=
  run (init "/downloads")
    [ CreateTask "t1" 0 "https://example.org/v" (Some "generic") None
    ; StartDownload 1 "t1" ok_handler
    ; ThreadStep 0 2 1700000000 ].

(** The store reached by creating a task and cancelling it at once. *)
Definition cancelled_store : Manager :=
  run (init "/downloads")
    [ CreateTask "t1" 0 "https://example.org/v" (Some "generic") None
    ; CancelTask 1 "t1" ].

(** Book-keeping that every write of the manager respects: the record
    stored under a key carries that key as its id, progress is 0 or 100,
    and a terminal status comes with the fields written beside it. *)
Definition task_ok (key : string) (t : Task) : Prop :=
  id t = key
  ∧ (progress t = 0 ∨ progress t = 100)
  ∧ (status t = completed →
       is_Some (file_path t) ∧ progress t = 100 ∧ is_Some (completed_at t))
  ∧ (status t = failed → is_Some (error t) ∧ is_Some (completed_at t))
  ∧ (status t = cancelled → is_Some (completed_at t)).

Definition store_ok (ts : gmap string Task) : Prop :=
  ∀ key t, ts !! key = Some t → task_ok key t.

(** No executor of the task is still running. *)
Definition quiet (task_id : string) (m : Manager) : Prop :=
  ∀ th, th ∈ threads m → th_task th = task_id → th_pc th = Finished.

(** The task of every executor is in the store. *)
Definition threads_have_tasks (m : Manager) : Prop :=
  ∀ th, th ∈ threads m → is_Some (tasks m !! th_task th).

(** The result fields agree with the status: a file path is only found
    on a completed task and an error only on a failed one, and a task that
    an executor is still working on has neither. *)
Definition results_match (m : Manager) : Prop :=
  ∀ key t, tasks m !! key = Some t →
    (is_Some (file_path t) → status t = completed)
    ∧ (is_Some (error t) → status t = failed)
    ∧ (∀ th, th ∈ threads m → th_task th = key → th_pc th ≠ Finished →
         file_path t = None ∧ error t = None).

(** An event that creates or starts the given task. *)
Definition restarts (task_id : string) (e : Event) : Prop :=
  match e with
  | CreateTask task_id' _ _ _ _ => task_id' = task_id
  | StartDownload _ task_id' _ => task_id' = task_id
  | _ => False
  end.

End DownloadManager.

(* ===================================================================== *)
(** * [src/services/platform_factory.py] *)
(* ===================================================================== *)

Module PlatformFactory.

(** The handler classes the factory instantiates. *)
Inductive HandlerClass :=
| YouTubeHandler | FacebookHandler | TikTokHandler | GenericHandler.

(** [PlatformFactory.create_handler], up to the class of the instance. *)
Definition create_handler (platform : option string) : HandlerClass :=
  let platform :=
    if URLParser.falsy platform then "generic" else Str.lower (default "" platform) in
  if String.eqb platform "youtube" then YouTubeHandler
  else if String.eqb platform "facebook" then FacebookHandler
  else if String.eqb platform "tiktok" then TikTokHandler
  else GenericHandler.

End PlatformFactory.

(* ===================================================================== *)
(** * [src/main.py]: the routes that drive the manager *)
(* ===================================================================== *)

Module App.
Import DownloadManager.

(** The JSON body of a POST: [None] for a key that is absent. *)
Record Body := {
  body_url : option string;
  body_format_id : option string
}.

Inductive Response :=
| Success (task_id : string)
| BadRequest (error : string).

Section Routes.

Variable validators_url : string → bool.
Variable urlparse_netloc : string → string.
(** What the instance of each handler class does when called. *)
Variable instance : PlatformFactory.HandlerClass → Handler.

(** [start_download()], the POST /api/download route.  [task_id] is the
    uuid drawn by [create_task]; [now] and [now'] are the clock readings
    of [create_task] and of [start_download]. *)
Definition post_download (task_id : string) (now now' : Z) (data : option Body)
    (m : Manager) : Response * Manager :=
  match data ≫= body_url with
  | None => (BadRequest "URL is required", m)
  | Some url =>
      let format_id := data ≫= body_format_id in
      if negb (URLParser.validate_url validators_url url)
      then (BadRequest "Invalid URL", m)
      else
        let platform := (URLParser.identify_platform validators_url urlparse_netloc url).1 in
        let url := URLParser.normalize_url validators_url urlparse_netloc url platform in
        let '(task_id, m) := create_task task_id now url platform format_id m in
        let handler := instance (PlatformFactory.create_handler platform) in
        let m := (start_download now' task_id handler m).2 in
        (Success task_id, m)
  end.

(** [cancel_download(task_id)], the POST /api/cancel route. *)
Definition post_cancel (now : Z) (task_id : string) (m : Manager) : Response * Manager :=
  let '(result, m) := cancel_task now task_id m in
  if result then (Success task_id, m)
  else (BadRequest "Failed to cancel download or task not found", m).

(** What happens to the manager of the application: the two routes that
    write to it, and the scheduling of an executor step.  The application
    never calls [clean_old_tasks]. *)
Inductive Request :=
| PostDownload (task_id : string) (now now' : Z) (data : option Body)
| PostCancel (now : Z) (task_id : string)
| Tick (i : nat) (now timestamp : Z).

Definition serve (m : Manager) (r : Request) : Manager :=
  match r with
  | PostDownload task_id now now' data => (post_download task_id now now' data m).2
  | PostCancel now task_id => (post_cancel now task_id m).2
  | Tick i now timestamp => step m (ThreadStep i now timestamp)
  end.

Definition serve_all (m : Manager) (requests : list Request) : Manager :=
  foldl serve m requests.

(** The uuids drawn while serving the requests. *)
Definition uuids (requests : list Request) : list string :=
  omap (λ r, match r with PostDownload task_id _ _ _ => Some task_id | _ => None end)
       requests.

End Routes.

End App.

(* ===================================================================== *)
(** * Properties of the URL parser *)
(* ===================================================================== *)

Section URLParserFacts.
Import URLParser.

Variable validators_url : string → bool.
Variable urlparse_netloc : string → string.

Local Abbreviation identify := (identify_platform validators_url urlparse_netloc).
Local Abbreviation normalize := (normalize_url validators_url urlparse_netloc).

Lemma ensure_protocol_has_protocol url : has_protocol (ensure_protocol url) = true.
Proof.
  unfold ensure_protocol.
  destruct (has_protocol url) eqn:E; simpl; [exact E | reflexivity].
Qed.

Lemma ensure_protocol_fixed url : has_protocol url = true → ensure_protocol url = url.
Proof. intros H. unfold ensure_protocol. now rewrite H. Qed.

Lemma watch_url_has_protocol video_id : has_protocol (watch_url video_id) = true.
Proof. reflexivity. Qed.

Lemma normalize_has_protocol url platform :
  has_protocol (normalize url platform) = true.
Proof.
  unfold normalize_url.
  repeat case_match;
    auto using ensure_protocol_has_protocol, watch_url_has_protocol.
Qed.

(** A string with a protocol and without the two markers is left alone,
    whichever platform is passed in or found. *)
Lemma normalize_unmarked url platform :
  has_protocol url = true →
  Str.contains "youtu.be" url = false →
  Str.contains "/shorts/" url = false →
  normalize url platform = url.
Proof.
  intros Hp Hy Hs. unfold normalize_url. rewrite Hy, Hs.
  case_match; now apply ensure_protocol_fixed.
Qed.

(** So is a string with a protocol when a platform other than youtube is
    passed in. *)
Lemma normalize_other_platform url q :
  has_protocol url = true → q ≠ "" → q ≠ "youtube" →
  normalize url (Some q) = url.
Proof.
  intros Hp Hne Hq. unfold normalize_url, falsy.
  apply String.eqb_neq in Hne. rewrite Hne.
  rewrite decide_False by congruence.
  now apply ensure_protocol_fixed.
Qed.

Lemma first_pattern_None patterns url :
  first_pattern patterns url = None ↔ ∀ r, r ∈ patterns → Re.search r url = None.
Proof.
  induction patterns as [|r0 rest IH]; simpl.
  - split; [intros _ r Hr; inversion Hr | reflexivity].
  - destruct (Re.search r0 url) eqn:E.
    + split; [discriminate |].
      intros H. specialize (H r0 (list_elem_of_here _ _)). congruence.
    + rewrite IH. split.
      * intros H r Hr. apply elem_of_cons in Hr as [-> | Hr]; auto.
      * intros H r Hr. apply H. now apply list_elem_of_further.
Qed.

(** "No per-platform pattern rule matches": every pattern of every
    platform fails to be found in the string. *)
Lemma first_platform_None table url :
  first_platform table url = None ↔
  ∀ platform patterns r,
    (platform, patterns) ∈ table → r ∈ patterns → Re.search r url = None.
Proof.
  induction table as [|[p0 rs0] rest IH]; simpl.
  - split; [intros _ ? ? ? Hin; inversion Hin | reflexivity].
  - destruct (first_pattern rs0 url) eqn:E.
    + split; [discriminate |].
      intros H. exfalso.
      assert (first_pattern rs0 url = None) as E'
        by (apply first_pattern_None; intros r Hr;
            exact (H p0 rs0 r (list_elem_of_here _ _) Hr)).
      congruence.
    + rewrite IH. split.
      * intros H p rs r Hin Hr. apply elem_of_cons in Hin as [Heq | Hin].
        -- inversion Heq; subst. eapply first_pattern_None; eauto.
        -- eauto.
      * intros H p rs r Hin Hr. eapply H; [apply list_elem_of_further|]; eauto.
Qed.

Lemma first_platform_Some table url platform g :
  first_platform table url = Some (platform, g) → platform ∈ map fst table.
Proof.
  induction table as [|[p0 rs0] rest IH]; simpl; [discriminate |].
  destruct (first_pattern rs0 url).
  - intros [= <- <-]. apply list_elem_of_here.
  - intros H. apply list_elem_of_further. auto.
Qed.

(** [platform_in_domain] returns the first name contained in the domain. *)
Lemma platform_in_domain_Some names domain p :
  platform_in_domain names domain = Some p →
  ∃ before after, names = before ++ p :: after
    ∧ Str.contains p domain = true
    ∧ ∀ q, q ∈ before → Str.contains q domain = false.
Proof.
  induction names as [|n rest IH]; simpl; [discriminate |].
  destruct (Str.contains n domain) eqn:E.
  - intros [= <-]. exists [], rest. repeat split; auto.
    intros q Hq. inversion Hq.
  - intros H. destruct (IH H) as (b & a & -> & Hc & Hb).
    exists (n :: b), a. repeat split; auto.
    intros q Hq. apply elem_of_cons in Hq as [-> | Hq]; auto.
Qed.

Lemma platform_in_domain_None names domain :
  platform_in_domain names domain = None ↔
  ∀ q, q ∈ names → Str.contains q domain = false.
Proof.
  induction names as [|n rest IH]; simpl.
  - split; [intros _ q Hq; inversion Hq | reflexivity].
  - destruct (Str.contains n domain) eqn:E.
    + split; [discriminate |]. intros H.
      specialize (H n (list_elem_of_here _ _)). congruence.
    + rewrite IH. split.
      * intros H q Hq. apply elem_of_cons in Hq as [-> | Hq]; auto.
      * intros H q Hq. apply H. now apply list_elem_of_further.
Qed.

(** C8 (amended).  For a string that passes [validate_url]: the platform
    returned is a key of [PATTERNS] or ["generic"]; and when no pattern of
    any platform is found in it, the result is decided by the base domain
    (the last two dot-separated labels of the netloc): the first platform
    name, in table order, that occurs in the base domain is returned with
    no id, and [("generic", None)] is returned when none occurs. *)
Theorem C8_identify_platform_fallback (url : string) :
  validate_url validators_url url = true →
  (∃ p, (identify url).1 = Some p ∧ (p ∈ platform_names ∨ p = "generic"))
  ∧ ((∀ platform patterns r,
        (platform, patterns) ∈ PATTERNS → r ∈ patterns → Re.search r url = None) →
     let base_domain := base_domain_of (urlparse_netloc url) in
     (∀ p before after,
        platform_names = before ++ p :: after →
        Str.contains p base_domain = true →
        (∀ q, q ∈ before → Str.contains q base_domain = false) →
        identify url = (Some p, None))
     ∧ ((∀ q, q ∈ platform_names → Str.contains q base_domain = false) →
        identify url = (Some "generic", None))).
Proof.
  intros Hv. unfold identify_platform. rewrite Hv. simpl negb. cbv iota zeta.
  split.
  - destruct (first_platform PATTERNS url) as [[p g]|] eqn:E.
    + exists p. split; [reflexivity |]. left.
      eapply first_platform_Some; eauto.
    + 
      destruct (platform_in_domain platform_names _) as [p|] eqn:E'.
      * exists p. split; [reflexivity |]. left.
        apply platform_in_domain_Some in E' as (b & a & -> & _ & _).
        apply elem_of_app. right. apply list_elem_of_here.
      * exists "generic". split; [reflexivity | now right].
  - intros Hnone. apply first_platform_None in Hnone. rewrite Hnone.
     set (base_domain := base_domain_of _). split.
    + intros p before after Hnames Hc Hb.
      destruct (platform_in_domain platform_names base_domain) as [p'|] eqn:E'.
      * apply platform_in_domain_Some in E' as (b' & a' & Hn' & Hc' & Hb').
        assert (p' = p) as ->; [| reflexivity].
        rewrite Hnames in Hn'. clear Hnames.
        revert b' Hn' Hb'. induction before as [|x before IH]; intros [|y b'] Hn' Hb'.
        -- now inversion Hn'.
        -- injection Hn' as Hhd Htl.
           pose proof (Hb' y (list_elem_of_here _ _)). congruence.
        -- injection Hn' as Hhd Htl.
           pose proof (Hb x (list_elem_of_here _ _)). congruence.
        -- injection Hn' as Hhd Htl.
           apply (IH (λ q Hq, Hb q (list_elem_of_further _ _ _ Hq)) b' Htl).
           intros q Hq. apply Hb'. now apply list_elem_of_further.
      * exfalso. rewrite platform_in_domain_None in E'.
        assert (p ∈ platform_names) as Hin
          by (rewrite Hnames; apply elem_of_app; right; apply list_elem_of_here).
        specialize (E' p Hin). congruence.
    + intros Hall. apply platform_in_domain_None in Hall. now rewrite Hall.
Qed.

(** C9.  [normalize_url("https://youtu.be/dQw4w9WgXcQ", "youtube")] is the
    watch URL of the same id, and [identify_platform] of the same input,
    which [validate_url] accepts, is [("youtube", "dQw4w9WgXcQ")]. *)
Theorem C9_youtu_be_scenario :
  validate_url validators_url "https://youtu.be/dQw4w9WgXcQ" = true →
  normalize "https://youtu.be/dQw4w9WgXcQ" (Some "youtube")
    = "https://www.youtube.com/watch?v=dQw4w9WgXcQ"
  ∧ identify "https://youtu.be/dQw4w9WgXcQ" = (Some "youtube", Some "dQw4w9WgXcQ").
Proof.
  intros Hv. split.
  - reflexivity.
  - unfold identify_platform. rewrite Hv. reflexivity.
Qed.

(** The platform [normalize_url] works with: the argument, or what
    [identify_platform] finds when the argument is missing or empty. *)
Lemma normalize_effective url platform :
  let effective :=
    if falsy platform then (identify url).1 else platform in
  effective ≠ Some "youtube" → has_protocol url = true → normalize url platform = url.
Proof.
  intros effective Hne Hp. unfold normalize_url. fold effective.
  rewrite decide_False by exact Hne. now apply ensure_protocol_fixed.
Qed.

End URLParserFacts.

Lemma C8_identify_platform_fallback_witness :
  URLParser.validate_url URLParser.validators_url_model "https://example.org/clip" = true
  ∧ URLParser.identify_platform URLParser.validators_url_model
      URLParser.urlparse_netloc_model "https://example.org/clip" = (Some "generic", None).
Proof.
  split; [reflexivity |].
  refine (proj2 (proj2 (C8_identify_platform_fallback URLParser.validators_url_model
            URLParser.urlparse_netloc_model "https://example.org/clip" eq_refl) _) _).
  - now apply first_platform_None.
  - now apply platform_in_domain_None.
Defined.

(** C8 as stated fails on a string that [validate_url] rejects: no
    pattern is found in it, yet the result is [(None, None)], which is
    neither a platform nor ["generic"]. *)
Lemma C8_counterexample :
  (∀ platform patterns r,
     (platform, patterns) ∈ URLParser.PATTERNS → r ∈ patterns →
     Re.search r "just some text" = None)
  ∧ URLParser.identify_platform URLParser.validators_url_model
      URLParser.urlparse_netloc_model "just some text" = (None, None).
Proof. split; [now apply first_platform_None | reflexivity]. Qed.

Lemma C9_youtu_be_scenario_witness :
  URLParser.validate_url URLParser.validators_url_model "https://youtu.be/dQw4w9WgXcQ" = true
  ∧ URLParser.normalize_url URLParser.validators_url_model URLParser.urlparse_netloc_model
      "https://youtu.be/dQw4w9WgXcQ" (Some "youtube")
    = "https://www.youtube.com/watch?v=dQw4w9WgXcQ"
  ∧ URLParser.identify_platform URLParser.validators_url_model URLParser.urlparse_netloc_model
      "https://youtu.be/dQw4w9WgXcQ" = (Some "youtube", Some "dQw4w9WgXcQ").
Proof.
  split; [reflexivity |].
  apply (C9_youtu_be_scenario URLParser.validators_url_model URLParser.urlparse_netloc_model).
  reflexivity.
Defined.

(** C4 as stated fails on the schemeless short link of the test suite
    when no platform is passed: the first call does not recognise the
    string and only prefixes the scheme, the second call recognises the
    result as youtube and rewrites it. *)
Lemma C4_counterexample :
  let normalize :=
    URLParser.normalize_url URLParser.validators_url_model URLParser.urlparse_netloc_model in
  normalize "youtu.be/dQw4w9WgXcQ" None = "https://youtu.be/dQw4w9WgXcQ"
  ∧ normalize (normalize "youtu.be/dQw4w9WgXcQ" None) None
    = "https://www.youtube.com/watch?v=dQw4w9WgXcQ"
  ∧ normalize (normalize "youtu.be/dQw4w9WgXcQ" None) None
    ≠ normalize "youtu.be/dQw4w9WgXcQ" None.
Proof.
  split; [reflexivity | split; [reflexivity |]].
  intros H. vm_compute in H. discriminate H.
Qed.

(** With the platform forced to youtube on both calls, idempotence fails
    as well, whatever the two library functions are: a last path segment
    that itself contains the short domain is rewritten twice. *)
Example normalize_forced_youtube_twice
    (validators_url : string → bool) (urlparse_netloc : string → string) :
  let normalize := URLParser.normalize_url validators_url urlparse_netloc in
  normalize "https://youtu.be/youtu.be" (Some "youtube")
    = "https://www.youtube.com/watch?v=youtu.be"
  ∧ normalize (normalize "https://youtu.be/youtu.be" (Some "youtube")) (Some "youtube")
    = "https://www.youtube.com/watch?v=watch".
Proof. split; reflexivity. Qed.

(** The index in [url.split('/shorts/')[1]] exists under the guard. *)
Lemma split_go_nonempty sep skip cur s : Str.split_go sep skip cur s ≠ [].
Proof.
  revert skip cur. induction s as [|c s IH]; intros skip cur; simpl; [discriminate |].
  destruct skip; [destruct (Str.startswith sep (String c s)) |]; auto; discriminate.
Qed.

Lemma split_contains sep s :
  sep ≠ "" → Str.contains sep s = true → (2 ≤ List.length (Str.split sep s))%nat.
Proof.
  intros Hsep. unfold Str.split. generalize "" as cur.
  induction s as [|c s IH]; intros cur H.
  - simpl in H. destruct sep; [congruence | discriminate].
  - cbn [Str.split_go]. cbn [Str.contains] in H.
    destruct (Str.startswith sep (String c s)) eqn:E.
    + cbn [List.length].
      pose proof (split_go_nonempty sep (Nat.pred (String.length sep)) "" s) as Hne.
      destruct (Str.split_go _ _ _ s); [congruence | simpl; lia].
    + simpl in H. apply IH. exact H.
Qed.

(** The assertions of [tests/test_downloader.py] that concern the parser
    hold of the embedding. *)
Example test_url_parser :
  let identify :=
    URLParser.identify_platform URLParser.validators_url_model URLParser.urlparse_netloc_model in
  identify "https://www.youtube.com/watch?v=dQw4w9WgXcQ" = (Some "youtube", Some "dQw4w9WgXcQ")
  ∧ identify "https://www.facebook.com/watch?v=2018722278279349" = (Some "facebook", None)
  ∧ identify "https://www.tiktok.com/@tiktok/video/6584647400055377158"
    = (Some "tiktok", Some "6584647400055377158").
Proof. repeat split; reflexivity. Qed.

Example test_url_normalization
    (validators_url : string → bool) (urlparse_netloc : string → string) :
  Forall
    (λ url,
       let normalized := URLParser.normalize_url validators_url urlparse_netloc url (Some "youtube") in
       Str.startswith "http" normalized = true
       ∧ Str.contains "youtube.com/watch?v=" normalized = true)
    [ "https://www.youtube.com/watch?v=dQw4w9WgXcQ"
    ; "https://youtu.be/dQw4w9WgXcQ"
    ; "https://www.youtube.com/shorts/dQw4w9WgXcQ"
    ; "youtu.be/dQw4w9WgXcQ" ].
Proof. repeat constructor. Qed.

(* ===================================================================== *)
(** * Properties of the format processor *)
(* ===================================================================== *)

Section FormatFacts.
Import Formats.

Lemma collect_filter_map formats :
  collect formats = format_entry_of <$> filter has_format_id formats.
Proof.
  induction formats as [|fmt rest IH]; [reflexivity |].
  cbn [collect]. unfold has_format_id at 1.
  destruct (truthy_str (raw_format_id fmt)) eqn:E; cbn [negb].
  - rewrite filter_cons_True by exact E. now rewrite fmap_cons, IH.
  - rewrite filter_cons_False; [exact IH |].
    unfold has_format_id. congruence.
Qed.

Context {A : Type} (key : A → Z).

Lemma insert_desc_perm x l : insert_desc key x l ≡ₚ x :: l.
Proof.
  induction l as [|y l IH]; simpl; [reflexivity |].
  destruct (key y <=? key x); [reflexivity |].
  rewrite IH. apply Permutation_swap.
Qed.

Lemma sorted_reverse_perm l : sorted_reverse key l ≡ₚ l.
Proof.
  induction l as [|x l IH]; simpl; [reflexivity |].
  now rewrite insert_desc_perm, IH.
Qed.

Local Abbreviation desc := (λ a b : A, key b ≤ key a).

Lemma insert_desc_sorted x l :
  StronglySorted desc l → StronglySorted desc (insert_desc key x l).
Proof.
  induction l as [|y l IH]; intros Hs; simpl.
  - constructor; constructor.
  - inversion Hs as [|? ? Hs' Hall]; subst.
    destruct (key y <=? key x) eqn:E.
    + apply Z.leb_le in E. constructor; [exact Hs |].
      constructor; [exact E |].
      eapply Forall_impl; [exact Hall |]. intros z Hz. simpl in Hz. lia.
    + apply Z.leb_gt in E. constructor; [auto |].
      rewrite insert_desc_perm. constructor; [lia | exact Hall].
Qed.

Lemma sorted_reverse_sorted l : StronglySorted desc (sorted_reverse key l).
Proof.
  induction l as [|x l IH]; simpl; [constructor |].
  now apply insert_desc_sorted.
Qed.

(** Insertion does not disturb the order among equal keys: [x] lands in
    front of everything that shares its key. *)
Lemma insert_desc_stable q x l :
  filter (λ e, key e = q) (insert_desc key x l) = filter (λ e, key e = q) (x :: l).
Proof.
  induction l as [|y l IH]; simpl; [reflexivity |].
  destruct (key y <=? key x) eqn:E; [reflexivity |].
  apply Z.leb_gt in E.
  rewrite (filter_cons _ y), IH, !(filter_cons _ x), (filter_cons _ y).
  repeat case_decide; try reflexivity. lia.
Qed.

Lemma sorted_reverse_stable q l :
  filter (λ e, key e = q) (sorted_reverse key l) = filter (λ e, key e = q) l.
Proof.
  induction l as [|x l IH]; simpl; [reflexivity |].
  rewrite insert_desc_stable, !filter_cons, IH. reflexivity.
Qed.

End FormatFacts.

(** A sorted list all of whose keys are numbers is sorted as a list of
    numbers. *)
Lemma sorted_with_keys {A} (key : A → option Z) (l : list A) :
  StronglySorted (λ a b, Formats.key_number (key b) ≤ Formats.key_number (key a)) l →
  Forall (λ e, Formats.has_key key e = true) l →
  StronglySorted
    (λ a b, ∃ qa qb, key a = Some qa ∧ key b = Some qb ∧ qb ≤ qa) l.
Proof.
  induction 1 as [|a rest Hs IH Hall]; intros Hk; [constructor |].
  apply Forall_cons in Hk as [Ha Hrest]. constructor; [auto |].
  rewrite Forall_forall in *. intros b Hb.
  specialize (Hall b Hb). specialize (Hrest b Hb).
  unfold Formats.has_key, Formats.key_number in *.
  destruct (key a) as [qa|]; [| discriminate]. destruct (key b) as [qb|]; [| discriminate].
  exists qa, qb. auto.
Qed.

(** What [sorted] returns: the same elements, by descending key, the
    elements of one key in their input order. *)
Lemma sorted_reverse_keys_Some {A} (key : A → option Z) (l out : list A) :
  Formats.sorted_reverse_keys key l = Some out →
  out ≡ₚ l
  ∧ StronglySorted
      (λ a b, ∃ qa qb, key a = Some qa ∧ key b = Some qb ∧ qb ≤ qa) out
  ∧ (∀ q, filter (λ e, key e = q) out = filter (λ e, key e = q) l).
Proof.
  unfold Formats.sorted_reverse_keys.
  destruct (List.length l <? 2)%nat eqn:El.
  - intros [= <-]. split; [reflexivity |]. split; [| reflexivity].
    destruct l as [|x [|y l]]; [constructor | repeat constructor | discriminate El].
  - destruct (forallb (Formats.has_key key) l) eqn:Ef; [| discriminate].
    intros [= <-]. set (k := λ x, Formats.key_number (key x)).
    pose proof (sorted_reverse_perm k l) as Hperm.
    split; [exact Hperm |]. split.
    + apply sorted_with_keys; [apply (sorted_reverse_sorted k) |].
      rewrite Hperm. rewrite forallb_forall in Ef. apply Forall_forall.
      intros e He. apply Ef. now apply list_elem_of_In.
    + intros q. clear El Ef Hperm. induction l as [|x l IH]; [reflexivity |].
      cbn [Formats.sorted_reverse]. rewrite filter_cons, <- IH.
      generalize (Formats.sorted_reverse k l) as sorted. intros sorted.
      induction sorted as [|y sorted IHs]; [reflexivity |].
      cbn [Formats.insert_desc]. destruct (k y <=? k x) eqn:E; [reflexivity |].
      apply Z.leb_gt in E. rewrite (filter_cons _ y), IHs, (filter_cons _ y).
      repeat case_decide; try reflexivity.
      subst k. cbn in E. unfold Formats.key_number in E.
      assert (key x = key y) as Hxy by congruence. rewrite Hxy in E. lia.
Qed.

(** [sorted] returns exactly when there are fewer than two elements or
    no key is [None]. *)
Lemma sorted_reverse_keys_None {A} (key : A → option Z) (l : list A) :
  Formats.sorted_reverse_keys key l = None ↔
  (2 ≤ List.length l)%nat ∧ Exists (λ e, key e = None) l.
Proof.
  unfold Formats.sorted_reverse_keys.
  destruct (List.length l <? 2)%nat eqn:El.
  - apply Nat.ltb_lt in El. split; [discriminate | lia].
  - apply Nat.ltb_ge in El.
    destruct (forallb (Formats.has_key key) l) eqn:Ef.
    + split; [discriminate |]. intros [_ Hex]. exfalso.
      rewrite forallb_forall in Ef. apply Exists_exists in Hex as (e & Hin & He).
      apply list_elem_of_In in Hin. specialize (Ef e Hin).
      unfold Formats.has_key in Ef. now rewrite He in Ef.
    + split; [| reflexivity]. intros _. split; [exact El |].
      clear El. induction l as [|x l IH]; [discriminate Ef |].
      cbn in Ef. apply andb_false_iff in Ef as [Hx | Hl].
      * left. unfold Formats.has_key in Hx. now destruct (key x).
      * right. auto.
Qed.

(** C7: the input that breaks it.  Two entries with ids, one of them
    with ['quality': None]: the entry keeps the [None], [sorted] compares
    it with a number and raises, so no list is returned.  On the scenario
    list, whose qualities are numbers, the result is [b, c, a]. *)
Theorem C7_none_quality_raises :
  map Formats.quality (Formats.collect Formats.none_quality_formats) = [None; Some 1]
  ∧ Formats._process_formats Formats.none_quality_formats = None
  ∧ option_map (map Formats.format_id) (Formats._process_formats Formats.scenario_formats)
    = Some [Some "b"; Some "c"; Some "a"].
Proof. repeat split; reflexivity. Qed.

(* ===================================================================== *)
(** * Properties of the task store *)
(* ===================================================================== *)

Section StoreFacts.
Import DownloadManager.

(** Closes a goal [P] or [¬ P] for a decidable closed [P] by evaluation. *)
Ltac by_decision :=
  lazymatch goal with
  | |- ¬ _ => let H := fresh in intros H; apply (bool_decide_pack _) in H; exact H
  | |- _ => apply (bool_decide_unpack _); exact I
  end.

(** C5.  [cancel_task] returns [True] exactly when the task exists and
    its status is one of created, starting, extracting, downloading; it
    then sets the status to cancelled and [completed_at] to the current
    time and touches nothing else.  When it returns [False] the manager is
    unchanged.  A further call always returns [False] and changes
    nothing. *)
Theorem C5_cancel_task (now : Z) (task_id : string) (m : Manager) :
  let ok := (cancel_task now task_id m).1 in
  let m' := (cancel_task now task_id m).2 in
  (ok = true ↔
     ∃ task, tasks m !! task_id = Some task
       ∧ status task ∈ [created; starting; extracting; downloading])
  ∧ (ok = true →
       ∃ task task', tasks m !! task_id = Some task
         ∧ tasks m' !! task_id = Some task'
         ∧ status task' = cancelled
         ∧ completed_at task' = Some now
         ∧ task' = set_completed_at (Some now) (set_status cancelled task)
         ∧ (∀ other, other ≠ task_id → tasks m' !! other = tasks m !! other)
         ∧ threads m' = threads m ∧ calls m' = calls m ∧ download_dir m' = download_dir m)
  ∧ (ok = false → m' = m)
  ∧ (∀ now', cancel_task now' task_id m' = (false, m')).
Proof.
  intros ok m'. subst ok m'. unfold cancel_task.
  destruct (tasks m !! task_id) as [task|] eqn:E.
  - case_bool_decide as Hs; cbn [fst snd].
    + split; [split; [eauto | reflexivity] |].
      split.
      { intros _. exists task, (set_completed_at (Some now) (set_status cancelled task)).
        cbn. rewrite lookup_insert_eq. repeat split; auto.
        intros other Hne. now rewrite lookup_insert_ne. }
      split; [discriminate |].
      intros now'. cbn. rewrite lookup_insert_eq. cbn.
      rewrite bool_decide_eq_false_2; [reflexivity | by_decision].
    + split; [split; [discriminate | intros (t & [= <-] & Ht); contradiction] |].
      split; [discriminate |]. split; [reflexivity |].
      intros now'. rewrite E. now rewrite bool_decide_eq_false_2.
  - cbn [fst snd].
    split; [split; [discriminate | intros (t & Ht & _); discriminate] |].
    split; [discriminate |]. split; [reflexivity |].
    intros now'. now rewrite E.
Qed.

(** One round of the loop, by the deletion condition. *)
Lemma clean_one_expired now h ts n task_id :
  clean_one now h (ts, n) task_id =
  match ts !! task_id with
  | Some task => if expired now h task then (delete task_id ts, n + 1) else (ts, n)
  | None => (ts, n)
  end.
Proof.
  unfold clean_one, expired. destruct (ts !! task_id) as [task|]; [| reflexivity].
  case_bool_decide as Hn; case_bool_decide as Hy; try contradiction; cbn [negb andb];
    try reflexivity.
  now destruct (completed_at task) as [c|]; [destruct (_ <? _) |].
Qed.

(** The loop over a duplicate-free list of ids: a listed task is deleted
    when it has expired, every other entry is kept as it is, and the
    counter grows by the number of deletions. *)
Lemma clean_loop now h (ids : list string) :
  ∀ (ts : gmap string Task) (n : Z),
    NoDup ids →
    let r := foldl (clean_one now h) (ts, n) ids in
    (∀ k, r.1 !! k =
          if decide (k ∈ ids)
          then task ← ts !! k; if expired now h task then None else Some task
          else ts !! k)
    ∧ Z.of_nat (size ts) + n = Z.of_nat (size r.1) + r.2.
Proof.
  induction ids as [|k0 ids IH]; intros ts n Hnd; cbn [foldl].
  - split; [| reflexivity]. intros k. rewrite decide_False; [reflexivity |].
    apply not_elem_of_nil.
  - apply NoDup_cons in Hnd as [Hk0 Hnd].
    rewrite clean_one_expired.
    destruct (ts !! k0) as [task0|] eqn:E0; [destruct (expired now h task0) eqn:Ex |].
    + destruct (IH (delete k0 ts) (n + 1) Hnd) as [Hl Hs]. split.
      * intros k. rewrite Hl. destruct (decide (k = k0)) as [-> | Hne].
        -- rewrite decide_False by exact Hk0.
           rewrite decide_True by apply list_elem_of_here.
           rewrite lookup_delete_eq, E0. cbn. now rewrite Ex.
        -- rewrite lookup_delete_ne by congruence.
           destruct (decide (k ∈ ids)) as [Hin | Hnin].
           ++ rewrite decide_True by (now apply list_elem_of_further). reflexivity.
           ++ rewrite decide_False; [reflexivity |].
              intros Hc. apply elem_of_cons in Hc as [? | ?]; contradiction.
      * rewrite <- Hs. rewrite map_size_delete_Some by eauto.
        assert (size ts ≠ 0%nat) by (intros ->%map_size_empty_inv; now rewrite lookup_empty in E0).
        lia.
    + destruct (IH ts n Hnd) as [Hl Hs]. split; [| exact Hs].
      intros k. rewrite Hl. destruct (decide (k = k0)) as [-> | Hne].
      * rewrite decide_False by exact Hk0.
        rewrite decide_True by apply list_elem_of_here.
        rewrite E0. cbn. now rewrite Ex.
      * destruct (decide (k ∈ ids)) as [Hin | Hnin].
        -- rewrite decide_True by (now apply list_elem_of_further). reflexivity.
        -- rewrite decide_False; [reflexivity |].
           intros Hc. apply elem_of_cons in Hc as [? | ?]; contradiction.
    + destruct (IH ts n Hnd) as [Hl Hs]. split; [| exact Hs].
      intros k. rewrite Hl. destruct (decide (k = k0)) as [-> | Hne].
      * rewrite decide_False by exact Hk0.
        rewrite decide_True by apply list_elem_of_here.
        now rewrite E0.
      * destruct (decide (k ∈ ids)) as [Hin | Hnin].
        -- rewrite decide_True by (now apply list_elem_of_further). reflexivity.
        -- rewrite decide_False; [reflexivity |].
           intros Hc. apply elem_of_cons in Hc as [? | ?]; contradiction.
Qed.

Lemma clean_old_tasks_lookup now h m k :
  tasks (clean_old_tasks now h m).2 !! k =
  task ← tasks m !! k; if expired now h task then None else Some task.
Proof.
  unfold clean_old_tasks.
  pose proof (clean_loop now h _ (tasks m) 0 (NoDup_fst_map_to_list (tasks m))) as [Hl _].
  destruct (foldl _ _ _) as [ts c] eqn:E. cbn in *.
  rewrite Hl. case_decide as Hin; [reflexivity |].
  destruct (tasks m !! k) as [task|] eqn:Ek; [| reflexivity].
  exfalso. apply Hin. apply list_elem_of_fmap. exists (k, task). split; [reflexivity |].
  now apply elem_of_map_to_list.
Qed.

Lemma expired_iff now h task :
  expired now h task = true ↔
  status task ∈ [completed; failed]
  ∧ ∃ at_, completed_at task = Some at_ ∧ h * 3600 * 1000000 < now - at_.
Proof.
  unfold expired. rewrite andb_true_iff, bool_decide_eq_true.
  destruct (completed_at task) as [c|].
  - rewrite Z.ltb_lt. split.
    + intros [? ?]. eauto.
    + intros [? (c' & [= <-] & ?)]. auto.
  - split; [intros [_ ?]; discriminate | intros [_ (c' & ? & _)]; discriminate].
Qed.

(** C3 (amended).  [clean_old_tasks] deletes exactly the tasks whose
    status is completed or failed and whose [completed_at] is set and lies
    more than [max_age_hours] hours before the current time; it returns
    the number of tasks deleted and leaves every other task, a cancelled
    one included, in the store unchanged.  With [max_age_hours = 0] every
    completed or failed task completed before the current time goes. *)
Theorem C3_clean_old_tasks (now max_age_hours : Z) (m : Manager) :
  let count := (clean_old_tasks now max_age_hours m).1 in
  let m' := (clean_old_tasks now max_age_hours m).2 in
  (∀ task_id task,
     tasks m !! task_id = Some task →
     (status task ∈ [completed; failed]
      ∧ ∃ at_, completed_at task = Some at_
          ∧ max_age_hours * 3600 * 1000000 < now - at_) →
     tasks m' !! task_id = None)
  ∧ (∀ task_id task,
       tasks m !! task_id = Some task →
       ¬ (status task ∈ [completed; failed]
          ∧ ∃ at_, completed_at task = Some at_
              ∧ max_age_hours * 3600 * 1000000 < now - at_) →
       tasks m' !! task_id = Some task)
  ∧ (∀ task_id, tasks m !! task_id = None → tasks m' !! task_id = None)
  ∧ count = Z.of_nat (size (tasks m)) - Z.of_nat (size (tasks m'))
  ∧ (∀ task_id task,
       tasks m !! task_id = Some task →
       status task ∈ [created; starting; extracting; downloading; cancelled] →
       tasks m' !! task_id = Some task)
  ∧ (max_age_hours = 0 →
     ∀ task_id task at_,
       tasks m !! task_id = Some task →
       status task ∈ [completed; failed] →
       completed_at task = Some at_ → at_ < now →
       tasks m' !! task_id = None)
  ∧ threads m' = threads m ∧ calls m' = calls m ∧ download_dir m' = download_dir m.
Proof.
  intros count m'.
  assert (∀ task_id task, tasks m !! task_id = Some task →
            expired now max_age_hours task = false → tasks m' !! task_id = Some task) as Hkeep.
  { intros k t Hk He. subst m'. rewrite clean_old_tasks_lookup, Hk. cbn. now rewrite He. }
  assert (∀ task_id task, tasks m !! task_id = Some task →
            expired now max_age_hours task = true → tasks m' !! task_id = None) as Hdrop.
  { intros k t Hk He. subst m'. rewrite clean_old_tasks_lookup, Hk. cbn. now rewrite He. }
  split; [| split; [| split; [| split; [| split; [| split]]]]].
  - intros k t Hk He. apply (Hdrop k t Hk). now apply expired_iff.
  - intros k t Hk He. apply (Hkeep k t Hk).
    destruct (expired now max_age_hours t) eqn:Ex; [| reflexivity].
    exfalso. apply He. now apply expired_iff.
  - intros k Hk. subst m'. now rewrite clean_old_tasks_lookup, Hk.
  - subst count m'. unfold clean_old_tasks.
    pose proof (clean_loop now max_age_hours _ (tasks m) 0
                  (NoDup_fst_map_to_list (tasks m))) as [_ Hs].
    destruct (foldl _ _ _) as [ts c]. cbn in *. lia.
  - intros k t Hk Hst. apply (Hkeep k t Hk). unfold expired.
    rewrite bool_decide_eq_false_2; [reflexivity |].
    destruct (status t); first [by_decision | exfalso; revert Hst; by_decision].
  - intros -> k t c Hk Hst Hc Hlt. apply (Hdrop k t Hk). apply expired_iff.
    split; [exact Hst |]. exists c. split; [exact Hc | lia].
  - subst m'. unfold clean_old_tasks. now destruct (foldl _ _ _).
Qed.

End StoreFacts.

(** C3 as stated fails on a cancelled task: it is terminal and its
    [completed_at] is a day old, yet a sweep with [max_age_hours = 0]
    deletes nothing and returns 0. *)
Lemma C3_counterexample :
  ∃ task,
    DownloadManager.tasks DownloadManager.cancelled_store !! "t1" = Some task
    ∧ DownloadManager.terminal (DownloadManager.status task) = true
    ∧ DownloadManager.completed_at task = Some 1
    ∧ DownloadManager.clean_old_tasks 86400000000 0 DownloadManager.cancelled_store
      = (0, DownloadManager.cancelled_store).
Proof.
  eexists. split; [vm_compute; reflexivity |].
  split; [reflexivity |]. split; [reflexivity |]. vm_compute. reflexivity.
Qed.

Section ExecutorFacts.
Import DownloadManager.

(** C2 (amended).  [start_download] returns [False] and changes nothing
    when the task id is not in the store.  For an id that is in the store
    it returns [True], sets the status to starting and [started_at] to the
    current time, and appends one new executor thread at its entry point,
    whatever the status of the task was; no other task, thread or call is
    touched. *)
Theorem C2_start_download (now : Z) (task_id : string) (h : Handler) (m : Manager) :
  (tasks m !! task_id = None → start_download now task_id h m = (false, m))
  ∧ (∀ task, tasks m !! task_id = Some task →
       ∃ m', start_download now task_id h m = (true, m')
         ∧ tasks m' !! task_id = Some (set_started_at (Some now) (set_status starting task))
         ∧ (∀ other, other ≠ task_id → tasks m' !! other = tasks m !! other)
         ∧ threads m' =
             threads m ++ [{| th_task := task_id; th_handler := h; th_pc := AtEntry |}]
         ∧ length (active task_id m') = S (length (active task_id m))
         ∧ calls m' = calls m ∧ download_dir m' = download_dir m).
Proof.
  unfold start_download. split.
  - intros ->. reflexivity.
  - intros task ->. eexists. split; [reflexivity |]. cbn.
    rewrite lookup_insert_eq. repeat split; auto.
    + intros other Hne. now rewrite lookup_insert_ne.
    + unfold active. cbn. rewrite filter_app, length_app.
      rewrite filter_cons_True by (cbn; split; [reflexivity | discriminate]).
      cbn. lia.
Qed.

End ExecutorFacts.

Lemma C2_start_download_witness :
  (DownloadManager.tasks (DownloadManager.init "/downloads") !! "t1" = None
   ∧ DownloadManager.start_download 0 "t1" DownloadManager.ok_handler
       (DownloadManager.init "/downloads")
     = (false, DownloadManager.init "/downloads"))
  ∧ (is_Some (DownloadManager.tasks DownloadManager.cancelled_store !! "t1")
     ∧ ∃ m', DownloadManager.start_download 2 "t1" DownloadManager.ok_handler
               DownloadManager.cancelled_store = (true, m')
          ∧ length (DownloadManager.active "t1" m') = 1%nat).
Proof.
  split.
  - split; [reflexivity |].
    apply (proj1 (C2_start_download 0 "t1" DownloadManager.ok_handler
                    (DownloadManager.init "/downloads"))).
    reflexivity.
  - assert (∃ task, DownloadManager.tasks DownloadManager.cancelled_store !! "t1" = Some task)
      as [task Htask] by (eexists; vm_compute; reflexivity).
    split; [eauto |].
    destruct (proj2 (C2_start_download 2 "t1" DownloadManager.ok_handler
                       DownloadManager.cancelled_store) task Htask)
      as (m' & Hm' & _ & _ & _ & Hact & _).
    exists m'. split; [exact Hm' | exact Hact].
Defined.

(** C2 as stated fails on a task that has been started and whose executor
    is still running: a second [start_download] returns [True], moves the
    status from extracting back to starting and leaves two active
    executors for the same id. *)
Lemma C2_counterexample :
  let m := DownloadManager.extracting_store in
  let r := DownloadManager.start_download 3 "t1" DownloadManager.ok_handler m in
  DownloadManager.status <$> DownloadManager.tasks m !! "t1" = Some DownloadManager.extracting
  ∧ length (DownloadManager.active "t1" m) = 1%nat
  ∧ r.1 = true
  ∧ DownloadManager.status <$> DownloadManager.tasks r.2 !! "t1" = Some DownloadManager.starting
  ∧ length (DownloadManager.active "t1" r.2) = 2%nat.
Proof. vm_compute. repeat split; reflexivity. Qed.

(** C1: the run that breaks it.  A task is created and started, its
    executor marks it extracting, and [cancel_task] then returns [True]
    and leaves it cancelled with [completed_at] set.  The executor goes
    on: its next step writes downloading over cancelled, and its last step
    writes completed together with a file path. *)
Theorem C1_cancelled_then_overwritten :
  let m := DownloadManager.extracting_store in
  let cancel := DownloadManager.cancel_task 3 "t1" m in
  let m1 := DownloadManager.run cancel.2 [DownloadManager.ThreadStep 0 4 1700000000] in
  let m2 := DownloadManager.run m1 [DownloadManager.ThreadStep 0 5 1700000000] in
  cancel.1 = true
  ∧ DownloadManager.status <$> DownloadManager.tasks cancel.2 !! "t1"
    = Some DownloadManager.cancelled
  ∧ DownloadManager.status <$> DownloadManager.tasks m1 !! "t1"
    = Some DownloadManager.downloading
  ∧ DownloadManager.status <$> DownloadManager.tasks m2 !! "t1"
    = Some DownloadManager.completed
  ∧ DownloadManager.file_path <$> DownloadManager.tasks m2 !! "t1"
    = Some (Some "/downloads/clip_1700000000.mp4")
  ∧ DownloadManager.completed_at <$> DownloadManager.tasks m2 !! "t1" = Some (Some 5).
Proof. vm_compute. repeat split; reflexivity. Qed.

Section ThreadFacts.
Import DownloadManager.

Lemma finished_stays now timestamp dir th ts :
  th_pc th = Finished → thread_step now timestamp dir th ts = (Finished, ts, []).
Proof. intros H. unfold thread_step. now rewrite H. Qed.

(** Four steps always bring [_download_thread] to its end. *)
Lemma download_thread_finishes now timestamp dir task_id h ts :
  (_download_thread now timestamp dir task_id h ts).1.1 = Finished.
Proof.
  unfold _download_thread, run_thread, thread_step, at_pc. cbn.
  repeat (case_match; cbn; simplify_eq; try reflexivity).
Qed.

(** C6.  An executor that stands before the extraction call, whose
    handler returns a failure for the task's URL, and whose task is in the
    store: the step marks the task failed with the handler's message (the
    fixed text when the result carries none), sets [completed_at] to the
    current time, changes no other field, so [file_path] stays as it was,
    unset for a task that never completed; the only handler call made is
    [extract_info], the thread is finished and none of its later steps
    changes the store or calls the handler. *)
Theorem C6_extract_failure (now timestamp : Z) (dir : string) (th : Thread)
    (ts : gmap string Task) (url : string) (format_id : option string)
    (task : Task) (i_error : option string) :
  th_pc th = AtExtract url format_id →
  extract_info (th_handler th) url = Returned (InfoFail i_error) →
  ts !! th_task th = Some task →
  ∃ task',
    thread_step now timestamp dir th ts
      = (Finished, <[th_task th := task']> ts, [CallExtract (th_task th) url])
    ∧ status task' = failed
    ∧ error task' = Some (default "Failed to extract video information" i_error)
    ∧ (∀ e, i_error = Some e → error task' = Some e)
    ∧ completed_at task' = Some now
    ∧ file_path task' = file_path task
    ∧ (file_path task = None → file_path task' = None)
    ∧ task' = set_completed_at (Some now)
                (set_error (Some (default "Failed to extract video information" i_error))
                   (set_status failed task))
    ∧ (∀ now' timestamp' dir' ts',
         thread_step now' timestamp' dir' (at_pc Finished th) ts' = (Finished, ts', [])).
Proof.
  intros Hpc Hx Ht. eexists. unfold thread_step. rewrite Hpc, Hx, Ht.
  split; [reflexivity |]. cbn.
  repeat split; auto.
  intros e ->. reflexivity.
Qed.

(** The same failure seen from the entry of [_download_thread], run
    without interruption: one handler call, the extraction, and a failed
    task. *)
Lemma download_thread_extract_failure now timestamp dir task_id h ts task i_error :
  ts !! task_id = Some task →
  extract_info h (url task) = Returned (InfoFail i_error) →
  _download_thread now timestamp dir task_id h ts
  = (Finished,
     <[task_id := set_completed_at (Some now)
                    (set_error (Some (default "Failed to extract video information" i_error))
                       (set_status failed task))]> ts,
     [CallExtract task_id (url task)]).
Proof.
  intros Ht Hx. unfold _download_thread, run_thread, thread_step. cbn.
  rewrite Ht. cbn. rewrite Hx. rewrite lookup_insert_eq. cbn.
  now rewrite insert_insert_eq.
Qed.

End ThreadFacts.

Lemma C6_extract_failure_witness :
  let failing := {|
    DownloadManager.extract_info :=
      λ _, DownloadManager.Returned (DownloadManager.InfoFail (Some "Video unavailable"));
    DownloadManager.download := DownloadManager.download DownloadManager.ok_handler |} in
  let th := {| DownloadManager.th_task := "t1"; DownloadManager.th_handler := failing;
               DownloadManager.th_pc := DownloadManager.AtExtract "https://example.org/v" None |} in
  let r := DownloadManager.thread_step 4 1700000000 "/downloads" th
             (DownloadManager.tasks DownloadManager.extracting_store) in
  r.1.1 = DownloadManager.Finished
  ∧ r.2 = [DownloadManager.CallExtract "t1" "https://example.org/v"]
  ∧ DownloadManager.status <$> r.1.2 !! "t1" = Some DownloadManager.failed
  ∧ DownloadManager.error <$> r.1.2 !! "t1" = Some (Some "Video unavailable")
  ∧ DownloadManager.file_path <$> r.1.2 !! "t1" = Some None.
Proof.
  intros failing th r.
  assert (∃ task, DownloadManager.tasks DownloadManager.extracting_store !! "t1" = Some task
                  ∧ DownloadManager.file_path task = None)
    as (task & Htask & Hfp) by (eexists; split; vm_compute; reflexivity).
  destruct (C6_extract_failure 4 1700000000 "/downloads" th
              (DownloadManager.tasks DownloadManager.extracting_store)
              "https://example.org/v" None task (Some "Video unavailable")
              eq_refl eq_refl Htask)
    as (task' & Hstep & Hst & Herr & _ & _ & _ & Hnone & _).
  subst r. rewrite Hstep. cbn [fst snd]. rewrite lookup_insert_eq. cbn.
  rewrite Hst, Herr, (Hnone Hfp). repeat split; reflexivity.
Defined.

(* ===================================================================== *)
(** * Properties of the derived file name *)
(* ===================================================================== *)

Section FilenameFacts.
Import DownloadManager.

Lemma take_length n s : (String.length (Str.take n s) ≤ n)%nat.
Proof.
  revert s. induction n as [|n IH]; intros [|c s]; simpl; try lia.
  specialize (IH s). lia.
Qed.

Lemma all_app p a b : Str.all p (a +:+ b) = Str.all p a && Str.all p b.
Proof.
  induction a as [|c a IH]; [reflexivity |].
  change (String c a +:+ b) with (String c (a +:+ b)).
  cbn [Str.all]. rewrite IH. now rewrite andb_assoc.
Qed.

Lemma all_filter p s : Str.all p (Str.filter p s) = true.
Proof.
  induction s as [|c s IH]; [reflexivity |]. simpl.
  destruct (p c) eqn:E; [simpl; now rewrite E |]. exact IH.
Qed.

Lemma all_lstrip p s : Str.all p s = true → Str.all p (Str.lstrip s) = true.
Proof.
  induction s as [|c s IH]; [reflexivity |]. intros H. simpl.
  destruct (Str.isspace c); [| exact H].
  simpl in H. apply andb_true_iff in H as [_ H]. auto.
Qed.

Lemma all_rstrip p s : Str.all p s = true → Str.all p (Str.rstrip s) = true.
Proof.
  induction s as [|c s IH]; [reflexivity |]. intros H.
  simpl in H. apply andb_true_iff in H as [Hc H]. specialize (IH H). simpl.
  destruct (Str.rstrip s) as [|d r].
  - destruct (Str.isspace c); [reflexivity |]. simpl. now rewrite Hc.
  - cbn [Str.all]. cbn [Str.all] in IH. now rewrite Hc.
Qed.

Lemma all_take p n s : Str.all p s = true → Str.all p (Str.take n s) = true.
Proof.
  revert s. induction n as [|n IH]; intros [|c s] H; try reflexivity.
  simpl in *. apply andb_true_iff in H as [Hc H]. rewrite Hc. simpl. auto.
Qed.

Lemma sublist_filter p s : sublist (Str.chars (Str.filter p s)) (Str.chars s).
Proof.
  induction s as [|c s IH]; simpl; [constructor |].
  destruct (p c); simpl; now constructor.
Qed.

Lemma sublist_lstrip s : sublist (Str.chars (Str.lstrip s)) (Str.chars s).
Proof.
  induction s as [|c s IH]; simpl; [constructor |].
  destruct (Str.isspace c); [now constructor | reflexivity].
Qed.

Lemma sublist_rstrip s : sublist (Str.chars (Str.rstrip s)) (Str.chars s).
Proof.
  induction s as [|c s IH]; simpl; [constructor |].
  destruct (Str.rstrip s) as [|d r].
  - destruct (Str.isspace c); simpl.
    + apply sublist_cons. exact IH.
    + apply sublist_skip. exact IH.
  - apply sublist_skip. exact IH.
Qed.

Lemma sublist_take n s : sublist (Str.chars (Str.take n s)) (Str.chars s).
Proof.
  revert s. induction n as [|n IH]; intros [|c s]; simpl; try constructor; auto.
  apply sublist_nil_l.
Qed.

Lemma append_assoc (a b c : string) : (a +:+ b) +:+ c = a +:+ (b +:+ c).
Proof.
  induction a as [|x a IH]; [reflexivity |].
  change (String x a +:+ b) with (String x (a +:+ b)).
  change (String x (a +:+ b) +:+ c) with (String x ((a +:+ b) +:+ c)).
  now rewrite IH.
Qed.

Lemma endswith_app suf a : Str.endswith suf (a +:+ suf) = true.
Proof.
  induction a as [|c a IH].
  - change ("" +:+ suf) with suf. destruct suf; simpl; [reflexivity |].
    now rewrite Ascii.eqb_refl, String.eqb_refl.
  - change (String c a +:+ suf) with (String c (a +:+ suf)).
    cbn [Str.endswith]. rewrite IH. apply orb_true_r.
Qed.

Lemma digits_of_uint d : Str.all Str.is_digit (NilEmpty.string_of_uint d) = true.
Proof. induction d; simpl; auto. Qed.

Lemma of_Z_digits n : Str.all Str.sign_or_digit (Str.of_Z n) = true.
Proof.
  assert (∀ d, Str.all Str.sign_or_digit (NilZero.string_of_uint d) = true) as Hu.
  { intros d. pose proof (digits_of_uint d) as Hd.
    assert (Str.all Str.sign_or_digit (NilEmpty.string_of_uint d) = true) as Hd'.
    { revert Hd. generalize (NilEmpty.string_of_uint d) as s.
      induction s as [|c s IH]; [reflexivity |]. simpl.
      intros [Hc Hs]%andb_true_iff. unfold Str.sign_or_digit at 1. rewrite Hc. simpl. auto. }
    destruct d; simpl; auto. }
  unfold Str.of_Z. destruct (Z.to_int n) as [d | d]; simpl; [apply Hu |].
  apply Hu.
Qed.

Lemma sign_or_digit_safe s : Str.all Str.sign_or_digit s = true → Str.all safe_char s = true.
Proof.
  induction s as [|c s IH]; [reflexivity |]. simpl.
  intros [Hc Hs]%andb_true_iff. rewrite (IH Hs), andb_true_r.
  unfold Str.sign_or_digit in Hc. unfold safe_char, Str.isalnum.
  apply orb_true_iff in Hc as [Hd | Hm].
  - now rewrite Hd.
  - apply Ascii.eqb_eq in Hm as ->. reflexivity.
Qed.

(** C10.  The file name is the cleaned title, an underscore, the decimal
    timestamp and [.mp4].  The cleaned title is at most 50 characters
    long, consists of characters of the title, in their order, each
    alphanumeric or one of space, dot, underscore and hyphen; the
    timestamp is printed as an integer; the name ends in [.mp4] and holds
    no character outside that set.  It is the name the executor joins to
    the download directory after a successful extraction, whatever format
    the task requests. *)
Theorem C10_output_filename (title : string) (timestamp : Z) :
  let name := output_filename title timestamp in
  ∃ stem,
    name = stem +:+ "_" +:+ Str.of_Z timestamp +:+ ".mp4"
    ∧ stem = Str.take 50 (Str.strip (Str.filter safe_char title))
    ∧ (String.length stem ≤ 50)%nat
    ∧ Str.all safe_char stem = true
    ∧ sublist (Str.chars stem) (Str.chars title)
    ∧ Str.all Str.sign_or_digit (Str.of_Z timestamp) = true
    ∧ Str.endswith ".mp4" name = true
    ∧ Str.all safe_char name = true
    ∧ (∀ now dir th ts url format_id i_thumbnail task,
         th_pc th = AtExtract url format_id →
         extract_info (th_handler th) url
           = Returned (InfoOk (Some (Some title)) i_thumbnail) →
         ts !! th_task th = Some task →
         (thread_step now timestamp dir th ts).1.1
           = AtDownload url format_id (os_path_join dir name)).
Proof.
  intros name. exists (clean_title title).
  assert (Str.all safe_char (clean_title title) = true) as Hsafe.
  { unfold clean_title, Str.strip.
    apply all_take, all_rstrip, all_lstrip, all_filter. }
  split; [reflexivity |]. split; [reflexivity |].
  split; [apply take_length |]. split; [exact Hsafe |].
  split.
  { unfold clean_title, Str.strip.
    etrans; [apply sublist_take |]. etrans; [apply sublist_rstrip |].
    etrans; [apply sublist_lstrip |]. apply sublist_filter. }
  split; [apply of_Z_digits |].
  split.
  { subst name. unfold output_filename.
    change (clean_title title +:+ "_" +:+ Str.of_Z timestamp +:+ ".mp4")
      with (clean_title title +:+ ("_" +:+ (Str.of_Z timestamp +:+ ".mp4"))).
    rewrite <- !append_assoc. apply endswith_app. }
  split.
  { subst name. unfold output_filename. rewrite !all_app, Hsafe.
    rewrite (sign_or_digit_safe _ (of_Z_digits timestamp)). reflexivity. }
  intros now dir th ts url format_id i_thumbnail task Hpc Hx Ht.
  unfold thread_step. rewrite Hpc, Hx. cbn. now rewrite Ht.
Qed.

End FilenameFacts.

(* ===================================================================== *)
(** * Further properties of the task store and the executor *)
(* ===================================================================== *)

Section ManagerFacts.
Import DownloadManager.

Lemma store_ok_empty : store_ok ∅.
Proof. intros key t H. rewrite lookup_empty in H. discriminate. Qed.

Lemma store_ok_insert ts key t :
  store_ok ts → task_ok key t → store_ok (<[key := t]> ts).
Proof.
  intros Hs Ht k t'. destruct (decide (key = k)) as [<- | Hne].
  - rewrite lookup_insert_eq. now intros [= <-].
  - rewrite lookup_insert_ne by exact Hne. apply Hs.
Qed.

(** Closes [task_ok] of a task rewritten by assignments, from [task_ok]
    of the task it was. *)
Ltac task_ok_step H :=
  destruct H as (Hid & Hprog & Hcomp & Hfail & Hcanc);
  unfold task_ok; cbn;
  repeat split; try discriminate; try (intros _); eauto.

Lemma thread_step_ok now timestamp dir th ts :
  store_ok ts → store_ok (thread_step now timestamp dir th ts).1.2.
Proof.
  intros Hs. unfold thread_step.
  repeat case_match; cbn [fst snd]; try exact Hs;
    (apply store_ok_insert; [exact Hs |]);
    match goal with
    | Hl : ts !! _ = Some ?t |- _ => pose proof (Hs _ _ Hl) as Hk; task_ok_step Hk
    end.
Qed.

Lemma clean_old_tasks_sub now h m key t :
  tasks (clean_old_tasks now h m).2 !! key = Some t → tasks m !! key = Some t.
Proof.
  rewrite clean_old_tasks_lookup. destruct (tasks m !! key) as [t0|]; cbn; [| discriminate].
  destruct (expired now h t0); [discriminate | auto].
Qed.

Lemma step_ok m e : store_ok (tasks m) → store_ok (tasks (step m e)).
Proof.
  intros Hs. destruct e as [tid now u pf f | now tid h | i now ts | now tid | now h]; cbn.
  - apply store_ok_insert; [exact Hs |].
    unfold task_ok; cbn. repeat split; try discriminate; auto.
  - unfold start_download. destruct (tasks m !! tid) as [t|] eqn:E; cbn; [| exact Hs].
    apply store_ok_insert; [exact Hs |].
    pose proof (Hs _ _ E) as Hk. task_ok_step Hk.
  - destruct (threads m !! i) as [th|]; [| exact Hs].
    pose proof (thread_step_ok now ts (download_dir m) th (tasks m) Hs) as Hok.
    destruct (thread_step _ _ _ _ _) as [[pc ts'] log]. exact Hok.
  - unfold cancel_task. destruct (tasks m !! tid) as [t|] eqn:E; [| exact Hs].
    case_bool_decide; cbn; [| exact Hs].
    apply store_ok_insert; [exact Hs |].
    pose proof (Hs _ _ E) as Hk. task_ok_step Hk.
  - intros key t Hl. apply clean_old_tasks_sub in Hl. exact (Hs _ _ Hl).
Qed.

Lemma run_ok m events : store_ok (tasks m) → store_ok (tasks (run m events)).
Proof.
  unfold run. revert m. induction events as [|e events IH]; intros m Hs; [exact Hs |].
  cbn. apply IH. now apply step_ok.
Qed.

(** X1.  The book-keeping of the store survives every sequence of
    operations and executor steps: a record carries the key it is stored
    under, progress is 0 or 100, a completed task has a file path,
    progress 100 and a completion time, a failed task has an error and a
    completion time, a cancelled task has a completion time. *)
Theorem store_bookkeeping_invariant (m : Manager) (events : list Event) :
  store_ok (tasks m) → store_ok (tasks (run m events)).
Proof. apply run_ok. Qed.

End ManagerFacts.

Lemma store_bookkeeping_invariant_witness :
  DownloadManager.store_ok (DownloadManager.tasks (DownloadManager.init "/downloads"))
  ∧ DownloadManager.store_ok
      (DownloadManager.tasks
         (DownloadManager.run (DownloadManager.init "/downloads")
            [ DownloadManager.CreateTask "t1" 0 "https://example.org/v" (Some "generic") None
            ; DownloadManager.StartDownload 1 "t1" DownloadManager.ok_handler
            ; DownloadManager.ThreadStep 0 2 1700000000
            ; DownloadManager.CancelTask 3 "t1"
            ; DownloadManager.ThreadStep 0 4 1700000000
            ; DownloadManager.ThreadStep 0 5 1700000000 ])).
Proof.
  split; [apply store_ok_empty |].
  apply (store_bookkeeping_invariant (DownloadManager.init "/downloads")).
  apply store_ok_empty.
Defined.

(** Refutes a hypothesis-free membership of a closed status in a closed
    list by evaluation. *)
Ltac refute_membership :=
  let H := fresh in intros H; apply (bool_decide_pack _) in H; exact H.

Section ExecutorIsolation.
Import DownloadManager.

Lemma thread_step_frame (now timestamp : Z) (dir : string) (th : Thread)
    (ts : gmap string Task) :
  let ts' := (thread_step now timestamp dir th ts).1.2 in
  (∀ key, key ≠ th_task th → ts' !! key = ts !! key)
  ∧ (∀ key, is_Some (ts' !! key) ↔ is_Some (ts !! key))
  ∧ (∀ t t', ts !! th_task th = Some t → ts' !! th_task th = Some t' →
       id t' = id t ∧ url t' = url t ∧ platform t' = platform t
       ∧ format_id t' = format_id t ∧ created_at t' = created_at t
       ∧ started_at t' = started_at t).
Proof.
  intros ts'. subst ts'. unfold thread_step.
  repeat case_match; cbn [fst snd];
    (split; [| split]);
    try (intros key Hne; now rewrite ?lookup_insert_ne by congruence);
    try (intros key; reflexivity);
    try (intros key; destruct (decide (th_task th = key)) as [<- | Hne];
         [rewrite ?lookup_insert_eq; split; intros _; eexists; eauto
         | now rewrite ?lookup_insert_ne by exact Hne]);
    try (intros t1 t2 Ht1 Ht2; rewrite ?lookup_insert_eq in Ht2; simplify_eq; cbn; auto 10).
Qed.

(** X2.  One step of an executor touches no task but its own, neither
    adds nor removes a task, and leaves the identity fields of its own
    task (id, url, platform, format id, creation and start time) as they
    were. *)
Theorem thread_step_isolated (now timestamp : Z) (dir : string) (th : Thread)
    (ts : gmap string Task) :
  let ts' := (thread_step now timestamp dir th ts).1.2 in
  (∀ key, key ≠ th_task th → ts' !! key = ts !! key)
  ∧ (∀ key, is_Some (ts' !! key) ↔ is_Some (ts !! key))
  ∧ (∀ t t', ts !! th_task th = Some t → ts' !! th_task th = Some t' →
       id t' = id t ∧ url t' = url t ∧ platform t' = platform t
       ∧ format_id t' = format_id t ∧ created_at t' = created_at t
       ∧ started_at t' = started_at t).
Proof. apply thread_step_frame. Qed.

Lemma at_pc_same th : at_pc (th_pc th) th = th.
Proof. now destruct th. Qed.

Lemma quiet_insert task_id m i th pc :
  quiet task_id m → threads m !! i = Some th →
  (th_task th = task_id → pc = Finished) →
  ∀ th', th' ∈ <[i := at_pc pc th]> (threads m) → th_task th' = task_id →
         th_pc th' = Finished.
Proof.
  intros Hq Hi Hpc th' Hin Htid.
  apply list_elem_of_lookup in Hin as [j Hj].
  apply list_lookup_insert_Some in Hj as [(-> & <- & _) | (Hne & Hj)].
  - cbn in *. auto.
  - apply Hq; [| exact Htid]. apply list_elem_of_lookup. eauto.
Qed.

(** One event that does not create or start the task, on a store where
    the task is terminal and none of its executors is running. *)
Lemma step_terminal_quiet m e task_id t :
  quiet task_id m → tasks m !! task_id = Some t → terminal (status t) = true →
  ¬ restarts task_id e →
  quiet task_id (step m e)
  ∧ (tasks (step m e) !! task_id = Some t
     ∨ (tasks (step m e) !! task_id = None ∧ status t ≠ cancelled)).
Proof.
  intros Hq Ht Hterm Hre.
  destruct e as [tid now u pf f | now tid h | i now ts | now tid | now h]; cbn in *.
  - split; [exact Hq |]. left. now rewrite lookup_insert_ne.
  - unfold start_download. destruct (tasks m !! tid) as [t0|] eqn:E; cbn; [| auto].
    split.
    + intros th Hin Htid. apply elem_of_app in Hin as [Hin | Hin]; [now apply Hq |].
      apply list_elem_of_singleton in Hin as ->. cbn in Htid. contradiction.
    + left. now rewrite lookup_insert_ne.
  - destruct (threads m !! i) as [th|] eqn:Ei; [| auto].
    pose proof (thread_step_frame now ts (download_dir m) th (tasks m)) as (Hiso & _ & _).
    destruct (decide (th_task th = task_id)) as [Heq | Hne].
    + assert (th_pc th = Finished) as Hfin
        by (apply Hq; [apply list_elem_of_lookup; eauto | exact Heq]).
      rewrite (finished_stays _ _ _ _ _ Hfin). cbn. split; [| now left].
      rewrite <- Hfin, at_pc_same, list_insert_id by exact Ei. exact Hq.
    + destruct (thread_step _ _ _ _ _) as [[pc ts'] log] eqn:Es. cbn in *. split.
      * intros th' Hin Htid. cbn in Hin.
        eapply (quiet_insert task_id m i th pc); eauto. intros Heq. contradiction.
      * left. rewrite Hiso by congruence. exact Ht.
  - unfold cancel_task. destruct (tasks m !! tid) as [t0|] eqn:E; [| auto].
    case_bool_decide as Hs; cbn; [| auto]. split; [exact Hq |]. left.
    destruct (decide (tid = task_id)) as [-> | Hne]; [| now rewrite lookup_insert_ne].
    exfalso. rewrite Ht in E. injection E as <-.
    destruct (status t); first [discriminate Hterm | revert Hs; refute_membership].
  - split.
    + unfold clean_old_tasks. now destruct (foldl _ _ _).
    + rewrite clean_old_tasks_lookup, Ht. cbn.
      destruct (expired now h t) eqn:Ex; [right | now left].
      split; [reflexivity |]. intros Hc. unfold expired in Ex. rewrite Hc in Ex.
      discriminate Ex.
Qed.

Lemma step_absent m e task_id :
  tasks m !! task_id = None → ¬ restarts task_id e →
  tasks (step m e) !! task_id = None.
Proof.
  intros Ht Hre.
  destruct e as [tid now u pf f | now tid h | i now ts | now tid | now h]; cbn in *.
  - now rewrite lookup_insert_ne.
  - unfold start_download. destruct (tasks m !! tid) as [t0|] eqn:E; cbn; [| auto].
    now rewrite lookup_insert_ne.
  - destruct (threads m !! i) as [th|] eqn:Ei; [| auto].
    pose proof (thread_step_frame now ts (download_dir m) th (tasks m)) as (_ & Hdom & _).
    destruct (thread_step _ _ _ _ _) as [[pc ts'] log]. cbn in *.
    apply eq_None_not_Some. rewrite Hdom, Ht. now intros [? ?].
  - unfold cancel_task. destruct (tasks m !! tid) as [t0|] eqn:E; [| auto].
    case_bool_decide; cbn; [| auto].
    destruct (decide (tid = task_id)) as [-> | Hne]; [congruence |].
    now rewrite lookup_insert_ne.
  - now rewrite clean_old_tasks_lookup, Ht.
Qed.

Lemma run_absent m events task_id :
  tasks m !! task_id = None → Forall (λ e, ¬ restarts task_id e) events →
  tasks (run m events) !! task_id = None.
Proof.
  intros Hn Hev. unfold run. revert m Hn.
  induction Hev as [|e events He Hev IH]; intros m Hn; [exact Hn |].
  cbn. apply IH. now apply step_absent.
Qed.

(** X3.  A terminal task none of whose executors is still running keeps
    its whole record through every sequence of cancellations, sweeps and
    steps of other executors, up to the moment a sweep removes it; only a
    new [create_task] or [start_download] for the same id can change it.
    A cancelled task is never removed. *)
Theorem terminal_task_settled (m : Manager) (events : list Event)
    (task_id : string) (t : Task) :
  quiet task_id m →
  tasks m !! task_id = Some t →
  terminal (status t) = true →
  Forall (λ e, ¬ restarts task_id e) events →
  tasks (run m events) !! task_id = Some t
  ∨ (tasks (run m events) !! task_id = None ∧ status t ≠ cancelled).
Proof.
  intros Hq Ht Hterm Hev. unfold run.
  revert m Hq Ht. induction Hev as [|e events He Hev IH]; intros m Hq Ht; [now left |].
  cbn. destruct (step_terminal_quiet m e task_id t Hq Ht Hterm He) as [Hq' [Hs | [Hn Hc]]].
  - now apply IH.
  - right. split; [| exact Hc]. now apply (run_absent (step m e) events task_id).
Qed.

End ExecutorIsolation.

Lemma terminal_task_settled_witness :
  ∃ t,
    DownloadManager.tasks DownloadManager.cancelled_store !! "t1" = Some t
    ∧ DownloadManager.tasks
        (DownloadManager.run DownloadManager.cancelled_store
           [ DownloadManager.CancelTask 2 "t1"
           ; DownloadManager.CleanOldTasks 86400000000 0
           ; DownloadManager.ThreadStep 0 3 1700000000 ]) !! "t1" = Some t.
Proof.
  assert (∃ t, DownloadManager.tasks DownloadManager.cancelled_store !! "t1" = Some t
               ∧ DownloadManager.status t = DownloadManager.cancelled)
    as (t & Ht & Hst) by (eexists; split; vm_compute; reflexivity).
  exists t. split; [exact Ht |].
  destruct (terminal_task_settled DownloadManager.cancelled_store
              [ DownloadManager.CancelTask 2 "t1"
              ; DownloadManager.CleanOldTasks 86400000000 0
              ; DownloadManager.ThreadStep 0 3 1700000000 ] "t1" t) as [H | [_ H]].
  - intros th Hin. vm_compute in Hin. inversion Hin.
  - exact Ht.
  - now rewrite Hst.
  - repeat constructor; cbn; auto.
  - exact H.
  - contradiction.
Defined.

Section ExecutorRuns.
Import DownloadManager.

(** X4.  Run without interruption on a task that is in the store, with a
    handler whose extraction succeeds with a usable title and whose
    download succeeds: the executor calls [extract_info] and then
    [download], the latter with the path built from the title and with the
    format id stored in the task; the task ends completed with the file
    path the handler returned, progress 100, the completion time, and the
    extracted title and thumbnail. *)
Theorem download_thread_success (now timestamp : Z) (dir task_id : string) (h : Handler)
    (ts : gmap string Task) (task : Task)
    (i_title : option (option string)) (i_thumbnail : option string)
    (name r_file_path : string) :
  ts !! task_id = Some task →
  extract_info h (url task) = Returned (InfoOk i_title i_thumbnail) →
  default (Some "video") i_title = Some name →
  let output_path := os_path_join dir (output_filename name timestamp) in
  download h (url task) output_path (format_id task) = Returned (DlOk r_file_path) →
  ∃ task',
    _download_thread now timestamp dir task_id h ts
    = (Finished, <[task_id := task']> ts,
       [ CallExtract task_id (url task)
       ; CallDownload task_id (url task) output_path (format_id task) ])
    ∧ status task' = completed
    ∧ file_path task' = Some r_file_path
    ∧ progress task' = 100
    ∧ completed_at task' = Some now
    ∧ title task' = mjoin i_title
    ∧ thumbnail task' = i_thumbnail
    ∧ error task' = error task.
Proof.
  intros Ht Hx Hn output_path Hd. eexists.
  unfold _download_thread, run_thread, thread_step. cbn.
  rewrite Ht. cbn. rewrite Hx, Hn. cbn. rewrite lookup_insert_eq. cbn.
  fold output_path. rewrite Hd. rewrite lookup_insert_eq. cbn.
  rewrite !insert_insert_eq.
  split; [reflexivity |]. cbn. repeat split; reflexivity.
Qed.

(** X5.  Whatever the handler does, returning or raising at either call,
    an uninterrupted executor of a task that is in the store ends
    finished and leaves the task completed or failed with the completion
    time set; a failed task carries an error message, and no other task is
    changed. *)
Theorem download_thread_always_terminal (now timestamp : Z) (dir task_id : string)
    (h : Handler) (ts : gmap string Task) (task : Task) :
  ts !! task_id = Some task →
  ∃ task' log,
    _download_thread now timestamp dir task_id h ts = (Finished, <[task_id := task']> ts, log)
    ∧ (status task' = completed ∨ status task' = failed)
    ∧ completed_at task' = Some now
    ∧ (status task' = failed → is_Some (error task')).
Proof.
  intros Ht. unfold _download_thread, run_thread, thread_step. cbn.
  rewrite Ht. cbn.
  destruct (extract_info h (url task)) as [[i_title i_thumbnail | i_error] | msg];
    cbn; rewrite ?lookup_insert_eq; cbn;
    [destruct (default (Some "video") i_title) as [name|];
       cbn; rewrite ?lookup_insert_eq; cbn;
       [destruct (download h _ _ _) as [[r_file_path | r_error] | msg];
          cbn; rewrite ?lookup_insert_eq; cbn |] | |];
    rewrite ?insert_insert_eq;
    (do 2 eexists; split; [reflexivity |]; cbn;
     repeat split; eauto; try discriminate).
Qed.

(** X6.  An exception inside the executor is turned into a failed task
    that carries the text of the exception: when [extract_info] raises,
    when [download] raises, and when the extracted title is [None] (the
    file name cannot be built).  In the first and the last case [download]
    is never called. *)
Theorem download_thread_contains_exceptions (now timestamp : Z) (dir task_id : string)
    (h : Handler) (ts : gmap string Task) (task : Task) :
  ts !! task_id = Some task →
  let failed_with msg :=
    set_completed_at (Some now) (set_error (Some msg) (set_status failed task)) in
  (∀ msg,
     extract_info h (url task) = Raised msg →
     _download_thread now timestamp dir task_id h ts
     = (Finished, <[task_id := failed_with msg]> ts, [CallExtract task_id (url task)]))
  ∧ (∀ i_thumbnail,
       extract_info h (url task) = Returned (InfoOk (Some None) i_thumbnail) →
       _download_thread now timestamp dir task_id h ts
       = (Finished, <[task_id := failed_with "'NoneType' object is not iterable"]> ts,
          [CallExtract task_id (url task)]))
  ∧ (∀ i_title i_thumbnail name msg,
       extract_info h (url task) = Returned (InfoOk i_title i_thumbnail) →
       default (Some "video") i_title = Some name →
       let output_path := os_path_join dir (output_filename name timestamp) in
       download h (url task) output_path (format_id task) = Raised msg →
       ∃ task',
         _download_thread now timestamp dir task_id h ts
         = (Finished, <[task_id := task']> ts,
            [ CallExtract task_id (url task)
            ; CallDownload task_id (url task) output_path (format_id task) ])
         ∧ status task' = failed ∧ error task' = Some msg
         ∧ completed_at task' = Some now ∧ file_path task' = file_path task).
Proof.
  intros Ht failed_with. split; [| split].
  - intros msg Hx. unfold _download_thread, run_thread, thread_step. cbn.
    rewrite Ht. cbn. rewrite Hx. cbn. rewrite lookup_insert_eq. cbn.
    now rewrite insert_insert_eq.
  - intros i_thumbnail Hx. unfold _download_thread, run_thread, thread_step. cbn.
    rewrite Ht. cbn. rewrite Hx. cbn. rewrite lookup_insert_eq. cbn.
    now rewrite insert_insert_eq.
  - intros i_title i_thumbnail name msg Hx Hn output_path Hd. eexists.
    unfold _download_thread, run_thread, thread_step. cbn.
    rewrite Ht. cbn. rewrite Hx, Hn. cbn. rewrite lookup_insert_eq. cbn.
    fold output_path. rewrite Hd. cbn. rewrite lookup_insert_eq. cbn.
    rewrite !insert_insert_eq. split; [reflexivity |]. cbn. repeat split; reflexivity.
Qed.

(** X7.  An executor started for an id that is not in the store changes
    nothing and calls no handler: the lookup fails, the handler of the
    exception fails on the same lookup, and the thread ends. *)
Theorem download_thread_missing_task (now timestamp : Z) (dir task_id : string)
    (h : Handler) (ts : gmap string Task) :
  ts !! task_id = None →
  _download_thread now timestamp dir task_id h ts = (Finished, ts, []).
Proof.
  intros Ht. unfold _download_thread, run_thread, thread_step. cbn.
  rewrite Ht. cbn. now rewrite Ht.
Qed.

End ExecutorRuns.

Lemma download_thread_success_witness :
  ∃ task task',
    DownloadManager.tasks DownloadManager.cancelled_store !! "t1" = Some task
    ∧ DownloadManager._download_thread 5 1700000000 "/downloads" "t1"
        DownloadManager.ok_handler (DownloadManager.tasks DownloadManager.cancelled_store)
      = (DownloadManager.Finished,
         <["t1" := task']> (DownloadManager.tasks DownloadManager.cancelled_store),
         [ DownloadManager.CallExtract "t1" "https://example.org/v"
         ; DownloadManager.CallDownload "t1" "https://example.org/v"
             "/downloads/clip_1700000000.mp4" None ])
    ∧ DownloadManager.status task' = DownloadManager.completed
    ∧ DownloadManager.file_path task' = Some "/downloads/clip_1700000000.mp4".
Proof.
  assert (∃ task, DownloadManager.tasks DownloadManager.cancelled_store !! "t1" = Some task
                  ∧ DownloadManager.url task = "https://example.org/v"
                  ∧ DownloadManager.format_id task = None)
    as (task & Ht & Hu & Hf) by (eexists; repeat split; vm_compute; reflexivity).
  destruct (download_thread_success 5 1700000000 "/downloads" "t1" DownloadManager.ok_handler
              (DownloadManager.tasks DownloadManager.cancelled_store) task
              (Some (Some "clip")) None "clip" "/downloads/clip_1700000000.mp4"
              Ht eq_refl eq_refl eq_refl)
    as (task' & Hrun & Hst & Hfp & _).
  exists task, task'. rewrite Hu, Hf in Hrun. repeat split; assumption.
Defined.

Lemma download_thread_always_terminal_witness :
  ∃ task' log,
    DownloadManager._download_thread 5 1700000000 "/downloads" "t1"
      DownloadManager.ok_handler (DownloadManager.tasks DownloadManager.cancelled_store)
    = (DownloadManager.Finished,
       <["t1" := task']> (DownloadManager.tasks DownloadManager.cancelled_store), log)
    ∧ DownloadManager.completed_at task' = Some 5.
Proof.
  assert (∃ task, DownloadManager.tasks DownloadManager.cancelled_store !! "t1" = Some task)
    as (task & Ht) by (eexists; vm_compute; reflexivity).
  destruct (download_thread_always_terminal 5 1700000000 "/downloads" "t1"
              DownloadManager.ok_handler
              (DownloadManager.tasks DownloadManager.cancelled_store) task Ht)
    as (task' & log & Hrun & _ & Hc & _).
  exists task', log. split; assumption.
Defined.

Lemma download_thread_contains_exceptions_witness :
  let raising := {|
    DownloadManager.extract_info := λ _, DownloadManager.Raised "connection reset";
    DownloadManager.download := DownloadManager.download DownloadManager.ok_handler |} in
  ∃ task,
    DownloadManager.tasks DownloadManager.cancelled_store !! "t1" = Some task
    ∧ DownloadManager._download_thread 5 1700000000 "/downloads" "t1" raising
        (DownloadManager.tasks DownloadManager.cancelled_store)
      = (DownloadManager.Finished,
         <["t1" := DownloadManager.set_completed_at (Some 5)
                     (DownloadManager.set_error (Some "connection reset")
                        (DownloadManager.set_status DownloadManager.failed task))]>
           (DownloadManager.tasks DownloadManager.cancelled_store),
         [DownloadManager.CallExtract "t1" (DownloadManager.url task)]).
Proof.
  intros raising.
  assert (∃ task, DownloadManager.tasks DownloadManager.cancelled_store !! "t1" = Some task)
    as (task & Ht) by (eexists; vm_compute; reflexivity).
  exists task. split; [exact Ht |].
  apply (proj1 (download_thread_contains_exceptions 5 1700000000 "/downloads" "t1" raising
                  (DownloadManager.tasks DownloadManager.cancelled_store) task Ht)).
  reflexivity.
Defined.

Lemma download_thread_missing_task_witness :
  DownloadManager.tasks (DownloadManager.init "/downloads") !! "t1" = None
  ∧ DownloadManager._download_thread 5 1700000000 "/downloads" "t1"
      DownloadManager.ok_handler (DownloadManager.tasks (DownloadManager.init "/downloads"))
    = (DownloadManager.Finished, DownloadManager.tasks (DownloadManager.init "/downloads"), []).
Proof.
  split; [reflexivity |].
  apply download_thread_missing_task. reflexivity.
Defined.

Section SweepAndCreate.
Import DownloadManager.

Lemma with_tasks_same m : with_tasks (tasks m) m = m.
Proof. now destruct m. Qed.

(** X8.  A sweep repeated with the same clock reading and the same age
    limit finds nothing more to delete: it returns 0 and leaves the
    manager as the first sweep left it. *)
Theorem clean_old_tasks_idempotent (now max_age_hours : Z) (m : Manager) :
  let m' := (clean_old_tasks now max_age_hours m).2 in
  clean_old_tasks now max_age_hours m' = (0, m').
Proof.
  intros m'.
  assert (tasks (clean_old_tasks now max_age_hours m').2 = tasks m') as Hsame.
  { apply map_eq. intros key. rewrite clean_old_tasks_lookup.
    destruct (tasks m' !! key) as [t|] eqn:E; [| reflexivity]. cbn.
    subst m'. rewrite clean_old_tasks_lookup in E.
    destruct (tasks m !! key) as [t0|]; cbn in E; [| discriminate].
    destruct (expired now max_age_hours t0) eqn:Ex; [discriminate |].
    injection E as <-. now rewrite Ex. }
  revert Hsame. unfold clean_old_tasks at 1 2.
  pose proof (clean_loop now max_age_hours _ (tasks m') 0
                (NoDup_fst_map_to_list (tasks m'))) as [_ Hs].
  destruct (foldl _ _ _) as [ts c]. cbn in *. intros ->.
  f_equal; [lia | apply with_tasks_same].
Qed.

(** X9.  [create_task] returns the id it stores the new record under;
    [get_task] of that id then yields a record in status created with
    progress 0, the creation time, and no start time, completion time,
    file path or error.  Every other task, the threads and the call log
    are untouched.  [get_all_tasks] grows by one record when the id is
    new and keeps its length when the id replaces an existing record. *)
Theorem create_task_get_task (task_id : string) (now : Z) (url_ : string)
    (platform_ format_id_ : option string) (m : Manager) :
  let r := create_task task_id now url_ platform_ format_id_ m in
  r.1 = task_id
  ∧ (∃ t, get_task task_id r.2 = Some t
       ∧ id t = task_id ∧ url t = url_ ∧ platform t = platform_
       ∧ format_id t = format_id_ ∧ status t = created ∧ progress t = 0
       ∧ created_at t = now ∧ started_at t = None ∧ completed_at t = None
       ∧ file_path t = None ∧ error t = None)
  ∧ (∀ other, other ≠ task_id → get_task other r.2 = get_task other m)
  ∧ threads r.2 = threads m ∧ calls r.2 = calls m
  ∧ (get_task task_id m = None →
       length (get_all_tasks r.2) = S (length (get_all_tasks m)))
  ∧ (is_Some (get_task task_id m) →
       length (get_all_tasks r.2) = length (get_all_tasks m)).
Proof.
  intros r. subst r. unfold create_task, get_task, get_all_tasks. cbn.
  split; [reflexivity |]. split.
  { eexists. rewrite lookup_insert_eq. split; [reflexivity |]. cbn. repeat split. }
  split; [intros other Hne; now rewrite lookup_insert_ne |].
  split; [reflexivity |]. split; [reflexivity |].
  rewrite !length_fmap, !length_map_to_list. split.
  - intros Hn. now apply map_size_insert_None.
  - intros Hs. now apply map_size_insert_Some.
Qed.

End SweepAndCreate.

(* ===================================================================== *)
(** * Properties of the routes *)
(* ===================================================================== *)

Section RouteFacts.
Import DownloadManager App.

Variable validators_url : string → bool.
Variable urlparse_netloc : string → string.
Variable instance : PlatformFactory.HandlerClass → Handler.

Local Abbreviation post := (post_download validators_url urlparse_netloc instance).
Local Abbreviation serve_one := (serve validators_url urlparse_netloc instance).
Local Abbreviation serve_list := (serve_all validators_url urlparse_netloc instance).

Lemma identify_valid_platform url :
  URLParser.validate_url validators_url url = true →
  ∃ p, (URLParser.identify_platform validators_url urlparse_netloc url).1 = Some p.
Proof.
  intros Hv. unfold URLParser.identify_platform. rewrite Hv. cbn [negb].
  destruct (URLParser.first_platform _ _) as [[p g]|]; [now exists p |].
  destruct (URLParser.platform_in_domain _ _) as [p|]; [now exists p | now exists "generic"].
Qed.

(** X10.  The download route creates nothing for a body without a URL or
    with a URL that fails validation: it answers with an error and the
    manager is unchanged.  For a valid URL it answers with the new task
    id; the task is stored in status starting with both clock readings, a
    platform, a URL that carries a protocol and the requested format, and
    exactly one executor is appended, whose handler is the instance of the
    class the factory picks for that platform. *)
Theorem post_download_outcome (task_id : string) (now now' : Z) (data : option Body)
    (m : Manager) :
  let r := post task_id now now' data m in
  (data ≫= body_url = None → r = (BadRequest "URL is required", m))
  ∧ (∀ url_, data ≫= body_url = Some url_ →
       URLParser.validate_url validators_url url_ = false →
       r = (BadRequest "Invalid URL", m))
  ∧ (∀ url_, data ≫= body_url = Some url_ →
       URLParser.validate_url validators_url url_ = true →
       r.1 = Success task_id
       ∧ ∃ t p,
           tasks r.2 !! task_id = Some t
           ∧ status t = starting ∧ created_at t = now ∧ started_at t = Some now'
           ∧ platform t = Some p
           ∧ URLParser.has_protocol (url t) = true
           ∧ format_id t = data ≫= body_format_id
           ∧ threads r.2 =
               threads m ++ [{| th_task := task_id;
                                th_handler := instance (PlatformFactory.create_handler (Some p));
                                th_pc := AtEntry |}]
           ∧ (∀ other, other ≠ task_id → tasks r.2 !! other = tasks m !! other)).
Proof.
  intros r. subst r. unfold post_download. split; [| split].
  - intros ->. reflexivity.
  - intros url_ -> Hv. now rewrite Hv.
  - intros url_ -> Hv. rewrite Hv. cbn [negb].
    destruct (identify_valid_platform url_ Hv) as [p Hp]. rewrite Hp.
    pose proof (normalize_has_protocol validators_url urlparse_netloc url_ (Some p)) as Hu.
    revert Hu. generalize (URLParser.normalize_url validators_url urlparse_netloc url_ (Some p)).
    intros u Hu.
    unfold create_task, start_download. cbn. rewrite lookup_insert_eq. cbn.
    split; [reflexivity |]. eexists _, p. rewrite lookup_insert_eq.
    split; [reflexivity |]. cbn. repeat split; auto.
    intros other Hne. now rewrite !lookup_insert_ne.
Qed.

Lemma post_download_threads task_id now now' data m :
  th_task <$> threads (post task_id now now' data m).2 = th_task <$> threads m
  ∨ th_task <$> threads (post task_id now now' data m).2
    = (th_task <$> threads m) ++ [task_id].
Proof.
  unfold post_download. destruct (data ≫= body_url) as [url_|]; [| now left].
  destruct (URLParser.validate_url validators_url url_); cbn [negb]; [| now left].
  right.
  generalize (URLParser.identify_platform validators_url urlparse_netloc url_).1.
  intros p.
  generalize (URLParser.normalize_url validators_url urlparse_netloc url_ p). intros u.
  unfold create_task, start_download. cbn. rewrite lookup_insert_eq. cbn.
  now rewrite fmap_app.
Qed.

Lemma tick_threads m i now timestamp :
  th_task <$> threads (step m (ThreadStep i now timestamp)) = th_task <$> threads m.
Proof.
  cbn. destruct (threads m !! i) as [th|] eqn:E; [| reflexivity].
  destruct (thread_step _ _ _ _ _) as [[pc ts] log]. cbn.
  rewrite list_fmap_insert. cbn. apply list_insert_id.
  now rewrite list_lookup_fmap, E.
Qed.

Lemma post_cancel_threads now task_id m :
  threads (post_cancel now task_id m).2 = threads m.
Proof.
  unfold post_cancel, cancel_task.
  destruct (tasks m !! task_id) as [t|]; [| reflexivity].
  now case_bool_decide.
Qed.

Lemma serve_all_nodup requests :
  ∀ m, NoDup ((th_task <$> threads m) ++ uuids requests) →
       NoDup (th_task <$> threads (serve_list m requests)).
Proof.
  induction requests as [|r requests IH]; intros m Hnd.
  - cbn in *. now rewrite app_nil_r in Hnd.
  - cbn. apply IH. destruct r as [tid now now' data | now tid | i now timestamp]; cbn.
    + change (uuids (PostDownload tid now now' data :: requests))
        with (tid :: uuids requests) in Hnd.
      destruct (post_download_threads tid now now' data m) as [-> | ->].
      * rewrite <- Permutation_middle in Hnd. now apply NoDup_cons in Hnd as [_ ?].
      * now rewrite <- app_assoc.
    + now rewrite post_cancel_threads.
    + pose proof (tick_threads m i now timestamp) as Ht. cbn in Ht. now rewrite Ht.
Qed.

Lemma serve_threads_have_tasks m r :
  threads_have_tasks m → threads_have_tasks (serve_one m r).
Proof.
  intros Hm. destruct r as [tid now now' data | now tid | i now timestamp]; cbn.
  - unfold post_download. destruct (data ≫= body_url) as [url_|]; [| exact Hm].
    destruct (URLParser.validate_url validators_url url_); cbn [negb]; [| exact Hm].
    generalize (URLParser.identify_platform validators_url urlparse_netloc url_).1.
    intros p.
    generalize (URLParser.normalize_url validators_url urlparse_netloc url_ p). intros u.
    unfold create_task, start_download. cbn. rewrite lookup_insert_eq. cbn.
    intros th Hin. cbn in *. apply elem_of_app in Hin as [Hin | Hin].
    + destruct (decide (th_task th = tid)) as [-> | Hne].
      * rewrite lookup_insert_eq. eauto.
      * rewrite !lookup_insert_ne by congruence. now apply Hm.
    + apply list_elem_of_singleton in Hin as ->. cbn. rewrite lookup_insert_eq. eauto.
  - unfold post_cancel, cancel_task.
    destruct (tasks m !! tid) as [t|] eqn:E; [| exact Hm].
    case_bool_decide; [| exact Hm]. cbn. intros th Hin. cbn in *.
    destruct (decide (th_task th = tid)) as [-> | Hne].
    + rewrite lookup_insert_eq. eauto.
    + rewrite lookup_insert_ne by congruence. now apply Hm.
  - destruct (threads m !! i) as [th|] eqn:E; [| exact Hm].
    pose proof (thread_step_frame now timestamp (download_dir m) th (tasks m))
      as (_ & Hdom & _).
    destruct (thread_step _ _ _ _ _) as [[pc ts] log]. cbn in *.
    intros th' Hin. cbn in *. apply Hdom.
    apply list_elem_of_lookup in Hin as [j Hj].
    apply list_lookup_insert_Some in Hj as [(-> & <- & _) | (Hne & Hj)]; cbn.
    + apply Hm. apply list_elem_of_lookup. eauto.
    + apply Hm. apply list_elem_of_lookup. eauto.
Qed.

(** X11.  Serving any sequence of download requests, cancel requests and
    executor steps in which no uuid is drawn twice, from an empty manager:
    no two executors work on the same task, and the task of every
    executor is in the store. *)
Theorem one_executor_per_task (dir : string) (requests : list Request) :
  NoDup (uuids requests) →
  let m := serve_list (init dir) requests in
  NoDup (th_task <$> threads m)
  ∧ ∀ th, th ∈ threads m → is_Some (tasks m !! th_task th).
Proof.
  intros Hnd m. subst m. split.
  - apply serve_all_nodup. exact Hnd.
  - assert (∀ m, threads_have_tasks m → threads_have_tasks (serve_list m requests)) as H.
    { induction requests as [|r rs IH]; intros m Hm; [exact Hm |].
      cbn. apply IH.
      - cbn in Hnd. destruct r; cbn in Hnd; [now apply NoDup_cons in Hnd as [_ ?] | auto..].
      - now apply serve_threads_have_tasks. }
    apply H. intros th Hin. inversion Hin.
Qed.

End RouteFacts.

Lemma one_executor_per_task_witness :
  let body url := Some {| App.body_url := Some url; App.body_format_id := None |} in
  let requests :=
    [ App.PostDownload "u1" 0 1 (body "https://youtu.be/dQw4w9WgXcQ")
    ; App.Tick 0 2 1700000000
    ; App.PostDownload "u2" 3 4 (body "https://vimeo.com/12345")
    ; App.PostCancel 5 "u1"
    ; App.PostDownload "u3" 6 7 (body "not a url") ] in
  NoDup (App.uuids requests)
  ∧ NoDup (DownloadManager.th_task <$>
             DownloadManager.threads
               (App.serve_all URLParser.validators_url_model URLParser.urlparse_netloc_model
                  (λ _, DownloadManager.ok_handler)
                  (DownloadManager.init "/downloads") requests)).
Proof.
  intros body requests.
  assert (NoDup (App.uuids requests)) as Hnd
    by (apply (bool_decide_unpack _); vm_compute; exact I).
  split; [exact Hnd |].
  exact (proj1 (one_executor_per_task URLParser.validators_url_model
                  URLParser.urlparse_netloc_model (λ _, DownloadManager.ok_handler)
                  "/downloads" requests Hnd)).
Defined.

(* ===================================================================== *)
(** * Further properties of the URL parser *)
(* ===================================================================== *)

Section ParserEdges.
Import URLParser.

Variable validators_url : string → bool.
Variable urlparse_netloc : string → string.

(** X12.  Whatever the input and the platform argument, the string
    [normalize_url] returns starts with [http://] or [https://]. *)
Theorem normalize_url_has_protocol (url : string) (platform : option string) :
  has_protocol (normalize_url validators_url urlparse_netloc url platform) = true.
Proof. apply normalize_has_protocol. Qed.

(** X13.  A string that [validate_url] rejects is not classified at all:
    [identify_platform] returns [(None, None)] without looking at the
    patterns or the domain, and [normalize_url] without a platform
    argument does no more than put [https://] in front of it unless it
    already starts with a protocol, even when the string is a youtube
    short link. *)
Theorem rejected_url_unclassified (url : string) :
  validate_url validators_url url = false →
  identify_platform validators_url urlparse_netloc url = (None, None)
  ∧ normalize_url validators_url urlparse_netloc url None = ensure_protocol url
  ∧ normalize_url validators_url urlparse_netloc url (Some "") = ensure_protocol url.
Proof.
  intros Hv.
  assert (identify_platform validators_url urlparse_netloc url = (None, None)) as Hi
    by (unfold identify_platform; now rewrite Hv).
  split; [exact Hi |].
  unfold normalize_url, falsy. rewrite Hi. cbn [fst String.eqb].
  now rewrite decide_False by discriminate.
Qed.

End ParserEdges.

Lemma rejected_url_unclassified_witness :
  URLParser.validate_url URLParser.validators_url_model "youtu.be/dQw4w9WgXcQ" = false
  ∧ URLParser.identify_platform URLParser.validators_url_model URLParser.urlparse_netloc_model
      "youtu.be/dQw4w9WgXcQ" = (None, None)
  ∧ URLParser.normalize_url URLParser.validators_url_model URLParser.urlparse_netloc_model
      "youtu.be/dQw4w9WgXcQ" None = "https://youtu.be/dQw4w9WgXcQ".
Proof.
  split; [reflexivity |].
  destruct (rejected_url_unclassified URLParser.validators_url_model
              URLParser.urlparse_netloc_model "youtu.be/dQw4w9WgXcQ" eq_refl)
    as (Hi & Hn & _).
  split; [exact Hi |]. rewrite Hn. reflexivity.
Defined.

(* ===================================================================== *)
(** * The matcher against the meaning of the patterns *)
(* ===================================================================== *)

Section MatcherFacts.
Import Re.








Lemma length_app (a b : string) :
  String.length (a +:+ b) = (String.length a + String.length b)%nat.
Proof.
  induction a as [|c a IH]; [reflexivity |].
  change (String c a +:+ b) with (String c (a +:+ b)). cbn. now rewrite IH.
Qed.



Lemma startswith_app x b : Str.startswith x (x +:+ b) = true.
Proof.
  induction x as [|c x IH]; [reflexivity |].
  change (String c x +:+ b) with (String c (x +:+ b)). cbn.
  now rewrite Ascii.eqb_refl.
Qed.

Lemma contains_app a x b : Str.contains x (a +:+ x +:+ b) = true.
Proof.
  induction a as [|c a IH].
  - change ("" +:+ x +:+ b) with (x +:+ b).
    destruct (x +:+ b) eqn:E; cbn; rewrite <- E, startswith_app; reflexivity.
  - change (String c a +:+ x +:+ b) with (String c (a +:+ x +:+ b)).
    cbn [Str.contains]. rewrite IH. apply orb_true_r.
Qed.




End MatcherFacts.

Section ContentIds.
Import URLParser Re.

Variable validators_url : string → bool.
Variable urlparse_netloc : string → string.







End ContentIds.


(* ===================================================================== *)
(** * Splitting at a character, and what the parser builds on it *)
(* ===================================================================== *)

Section SplitFacts.

Lemma rev_app_append a b : String.rev_app a b = String.rev a +:+ b.
Proof.
  unfold String.rev. revert b. induction a as [|c a IH]; intros b; [reflexivity |].
  cbn. rewrite (IH (String c b)), (IH (String c "")).
  now rewrite append_assoc.
Qed.

Lemma append_empty_r a : a +:+ "" = a.
Proof.
  induction a as [|x a IH]; [reflexivity |].
  change (String x a +:+ "") with (String x (a +:+ "")). now rewrite IH.
Qed.

Lemma count_app c a b : Str.count c (a +:+ b) = (Str.count c a + Str.count c b)%nat.
Proof.
  induction a as [|x a IH]; [reflexivity |].
  change (String x a +:+ b) with (String x (a +:+ b)). cbn. rewrite IH. lia.
Qed.

Lemma count_rev c a : Str.count c (String.rev a) = Str.count c a.
Proof.
  induction a as [|x a IH]; [reflexivity |].
  unfold String.rev. cbn. rewrite rev_app_append, count_app, IH. cbn. lia.
Qed.

Lemma join_cons sep p l :
  l ≠ [] → Str.join sep (p :: l) = p +:+ sep +:+ Str.join sep l.
Proof. destruct l; [congruence | reflexivity]. Qed.

Lemma join_app sep l1 l2 :
  l1 ≠ [] → l2 ≠ [] →
  Str.join sep (l1 ++ l2) = Str.join sep l1 +:+ sep +:+ Str.join sep l2.
Proof.
  intros H1 H2. induction l1 as [|p l1 IH]; [congruence |].
  destruct l1 as [|q l1].
  - cbn [app]. now rewrite join_cons.
  - change ((p :: q :: l1) ++ l2) with (p :: ((q :: l1) ++ l2)).
    rewrite join_cons by discriminate. rewrite IH by discriminate.
    rewrite (join_cons sep p (q :: l1)) by discriminate.
    now rewrite !append_assoc.
Qed.

Lemma rev_cons a cur s : String.rev (String a cur) +:+ s = String.rev cur +:+ String a s.
Proof.
  unfold String.rev at 1. cbn [String.rev_app].
  rewrite rev_app_append, append_assoc. reflexivity.
Qed.

Lemma startswith_drop p : ∀ s,
  Str.startswith p s = true → s = p +:+ Str.drop (String.length p) s.
Proof.
  induction p as [|a p IH]; intros s H; [reflexivity |].
  destruct s as [|b s]; [discriminate |]. cbn in H.
  destruct (Ascii.eqb a b) eqn:E; [| discriminate].
  apply Ascii.eqb_eq in E as <-.
  change (String a s = String a (p +:+ Str.drop (String.length p) s)).
  f_equal. now apply IH.
Qed.

Lemma partition_eq sep s :
  Str.partition sep s =
  if Str.startswith sep s then Some ("", Str.drop (String.length sep) s)
  else match s with
       | "" => None
       | String a s' =>
           match Str.partition sep s' with
           | Some (x, y) => Some (String a x, y)
           | None => None
           end
       end.
Proof. destruct s; reflexivity. Qed.

(** [partition] finds an occurrence, and no occurrence starts before it. *)
Lemma partition_Some sep s : ∀ a b,
  Str.partition sep s = Some (a, b) →
  s = a +:+ sep +:+ b
  ∧ ∀ p q, s = p +:+ sep +:+ q → (String.length a ≤ String.length p)%nat.
Proof.
  induction s as [|x s IH]; intros a b; rewrite partition_eq;
    destruct (Str.startswith sep _) eqn:E.
  - intros [= <- <-]. split; [now apply startswith_drop | cbn; lia].
  - discriminate.
  - intros [= <- <-]. split; [now apply startswith_drop | cbn; lia].
  - destruct (Str.partition sep s) as [[a' b']|]; [| discriminate].
    intros [= <- <-]. destruct (IH _ _ eq_refl) as [Hs Hmin]. split.
    + now rewrite Hs at 1.
    + intros [|y p] q Hpq.
      * change ("" +:+ sep +:+ q) with (sep +:+ q) in Hpq.
        rewrite Hpq, startswith_app in E. discriminate.
      * change (String y p +:+ sep +:+ q) with (String y (p +:+ sep +:+ q)) in Hpq.
        injection Hpq as _ Hpq. specialize (Hmin _ _ Hpq). cbn. lia.
Qed.

Lemma partition_None sep s : Str.partition sep s = None → Str.contains sep s = false.
Proof.
  induction s as [|x s IH]; rewrite partition_eq; cbn [Str.contains];
    destruct (Str.startswith sep _); try discriminate; [reflexivity |].
  destruct (Str.partition sep s) as [[a b]|]; [discriminate | auto].
Qed.

(** Passing over the rest of a separator is dropping it. *)
Lemma split_go_skip sep s : ∀ k cur,
  Str.split_go sep k cur s = Str.split_go sep 0 cur (Str.drop k s).
Proof.
  induction s as [|a s IH]; intros [|k] cur; try reflexivity.
  cbn [Str.split_go Str.drop]. apply IH.
Qed.

(** [split] cuts at the first occurrence of the separator and goes on
    with what follows it. *)
Lemma split_go_partition sep s : sep ≠ "" → ∀ cur,
  Str.split_go sep 0 cur s =
  match Str.partition sep s with
  | Some (a, b) => (String.rev cur +:+ a) :: Str.split_go sep 0 "" b
  | None => [String.rev cur +:+ s]
  end.
Proof.
  intros Hsep. destruct sep as [|x sep]; [congruence |].
  induction s as [|a s IH]; intros cur.
  - cbn. now rewrite append_empty_r.
  - rewrite partition_eq. cbn [Str.split_go].
    destruct (Str.startswith (String x sep) (String a s)).
    + rewrite split_go_skip, append_empty_r. reflexivity.
    + rewrite IH. destruct (Str.partition (String x sep) s) as [[u v]|];
        now rewrite rev_cons.
Qed.

(** The second piece of a string that contains the separator: what lies
    between the first occurrence and the next one after it, or the end. *)
Lemma split_second sep s :
  sep ≠ "" → Str.contains sep s = true →
  ∃ pre rest, let piece := nth 1 (Str.split sep s) "" in
    s = pre +:+ sep +:+ piece +:+ rest
    ∧ (∀ p q, s = p +:+ sep +:+ q → (String.length pre ≤ String.length p)%nat)
    ∧ (∀ p q, piece +:+ rest = p +:+ sep +:+ q →
         (String.length piece ≤ String.length p)%nat)
    ∧ (rest = "" ∨ ∃ r, rest = sep +:+ r).
Proof.
  intros Hsep Hc. unfold Str.split. rewrite split_go_partition by exact Hsep.
  destruct (Str.partition sep s) as [[a b]|] eqn:P;
    [| apply partition_None in P; congruence].
  apply partition_Some in P as [Hs Hmin].
  rewrite (split_go_partition sep b) by exact Hsep.
  change (String.rev "") with "".
  destruct (Str.partition sep b) as [[a2 b2]|] eqn:P2.
  - apply partition_Some in P2 as [Hb Hmin2].
    exists a, (sep +:+ b2). cbn [nth]. cbv zeta. change ("" +:+ a2) with a2.
    rewrite <- Hb. split; [exact Hs |]. split; [exact Hmin |]. split; [exact Hmin2 | eauto].
  - apply partition_None in P2.
    exists a, "". cbn [nth]. cbv zeta. change ("" +:+ b) with b. rewrite append_empty_r.
    split; [exact Hs |]. split; [exact Hmin |]. split; [| now left].
    intros p q Hb. rewrite Hb, contains_app in P2. discriminate.
Qed.

(** Of two ways to cut one string, the shorter head opens the longer. *)
Lemma app_prefix x : ∀ a b y,
  a +:+ b = x +:+ y → (String.length x ≤ String.length a)%nat → ∃ e, a = x +:+ e.
Proof.
  induction x as [|u x IH]; intros a b y H Hlen; [now exists a |].
  destruct a as [|v a]; [cbn in Hlen; lia |].
  change (String v (a +:+ b) = String u (x +:+ y)) in H.
  injection H as -> H. cbn in Hlen.
  destruct (IH a b y H) as [e ->]; [lia |]. now exists e.
Qed.

Variable c : ascii.
Local Abbreviation sep := (String c "").

Lemma split_go_char cur a s :
  Str.split_go sep 0 cur (String a s) =
  if Ascii.eqb c a then String.rev cur :: Str.split_go sep 0 "" s
  else Str.split_go sep 0 (String a cur) s.
Proof. cbn. now destruct (Ascii.eqb c a). Qed.

(** Joining the pieces with the separator gives the string back. *)
Lemma split_go_join s : ∀ cur,
  Str.join sep (Str.split_go sep 0 cur s) = String.rev cur +:+ s.
Proof.
  induction s as [|a s IH]; intros cur.
  - cbn. now rewrite append_empty_r.
  - rewrite split_go_char. destruct (Ascii.eqb c a) eqn:E.
    + apply Ascii.eqb_eq in E as <-.
      rewrite join_cons by apply split_go_nonempty. rewrite IH. reflexivity.
    + rewrite IH. unfold String.rev at 1. cbn [String.rev_app].
      rewrite rev_app_append, append_assoc. reflexivity.
Qed.

(** No piece contains the separator. *)
Lemma split_go_pieces s : ∀ cur,
  Str.count c cur = 0%nat →
  Forall (λ p, Str.count c p = 0%nat) (Str.split_go sep 0 cur s).
Proof.
  induction s as [|a s IH]; intros cur Hcur.
  - cbn. constructor; [| constructor]. now rewrite count_rev.
  - rewrite split_go_char. destruct (Ascii.eqb c a) eqn:E.
    + constructor; [now rewrite count_rev | now apply IH].
    + apply IH. cbn. rewrite Ascii.eqb_sym, E. exact Hcur.
Qed.

(** There is one piece more than there are separators. *)
Lemma split_go_length s : ∀ cur,
  List.length (Str.split_go sep 0 cur s) = S (Str.count c s).
Proof.
  induction s as [|a s IH]; intros cur; [reflexivity |].
  rewrite split_go_char. cbn [Str.count]. rewrite (Ascii.eqb_sym a c).
  destruct (Ascii.eqb c a); cbn; now rewrite IH.
Qed.

(** A string without the separator is one piece. *)
Lemma split_go_no_sep s : ∀ cur,
  Str.count c s = 0%nat → Str.split_go sep 0 cur s = [String.rev cur +:+ s].
Proof.
  induction s as [|a s IH]; intros cur H.
  - cbn. now rewrite append_empty_r.
  - rewrite split_go_char. cbn in H. rewrite Ascii.eqb_sym.
    destruct (Ascii.eqb a c); [discriminate |].
    rewrite IH by exact H. now rewrite rev_cons.
Qed.

Lemma split_join s : Str.join sep (Str.split sep s) = s.
Proof. unfold Str.split. now rewrite split_go_join. Qed.

Lemma split_pieces s : Forall (λ p, Str.count c p = 0%nat) (Str.split sep s).
Proof. now apply split_go_pieces. Qed.

Lemma split_length s : List.length (Str.split sep s) = S (Str.count c s).
Proof. apply split_go_length. Qed.

(** The last piece is a separator-free tail of the string. *)
Lemma split_last s :
  Str.count c (Str.last_piece (Str.split sep s)) = 0%nat
  ∧ ∃ pre, s = pre +:+ Str.last_piece (Str.split sep s).
Proof.
  pose proof (split_pieces s) as Hp. pose proof (split_join s) as Hj.
  pose proof (split_go_nonempty sep 0 "" s) as Hne. fold (Str.split sep s) in Hne.
  destruct (exists_last Hne) as (l & p & Hl). rewrite Hl in *.
  unfold Str.last_piece. rewrite last_last. split.
  - apply Forall_app in Hp as [_ Hp]. now inversion Hp.
  - destruct l as [|q l]; [exists ""; now rewrite <- Hj |].
    rewrite join_app in Hj by discriminate. rewrite <- Hj.
    exists (Str.join sep (q :: l) +:+ sep). now rewrite append_assoc.
Qed.

(** The first piece is a separator-free head of the string. *)
Lemma split_first s :
  Str.count c (Str.first_piece (Str.split sep s)) = 0%nat
  ∧ ∃ post, s = Str.first_piece (Str.split sep s) +:+ post.
Proof.
  pose proof (split_pieces s) as Hp. pose proof (split_join s) as Hj.
  destruct (Str.split sep s) as [|p l] eqn:E;
    [now apply split_go_nonempty in E |].
  cbn. split; [now inversion Hp |].
  destruct l as [|q l]; [exists ""; cbn in Hj; now rewrite append_empty_r |].
  rewrite join_cons in Hj by discriminate. rewrite <- Hj. eauto.
Qed.

(** The last piece is what follows the last separator. *)
Lemma split_last_cut s :
  ∃ pre, s = pre +:+ Str.last_piece (Str.split sep s)
    ∧ (pre = "" ∨ ∃ p, pre = p +:+ sep).
Proof.
  pose proof (split_join s) as Hj.
  pose proof (split_go_nonempty sep 0 "" s) as Hne. fold (Str.split sep s) in Hne.
  destruct (exists_last Hne) as (l & p & Hl). rewrite Hl in *.
  unfold Str.last_piece. rewrite last_last.
  destruct l as [|q l]; [exists ""; split; [now rewrite <- Hj | now left] |].
  rewrite join_app in Hj by discriminate. rewrite <- Hj.
  exists (Str.join sep (q :: l) +:+ sep). split; [now rewrite append_assoc | eauto].
Qed.

(** The first piece is what precedes the first separator. *)
Lemma split_first_cut s :
  ∃ post, s = Str.first_piece (Str.split sep s) +:+ post
    ∧ (post = "" ∨ ∃ r, post = sep +:+ r).
Proof.
  pose proof (split_join s) as Hj.
  destruct (Str.split sep s) as [|p l] eqn:E;
    [now apply split_go_nonempty in E |].
  cbn. destruct l as [|q l].
  - exists "". cbn in Hj. rewrite append_empty_r. split; [auto | now left].
  - rewrite join_cons in Hj by discriminate. rewrite <- Hj. eauto.
Qed.

End SplitFacts.

Section ParserShapes.
Import URLParser.

(** X15.  The base domain the fallback of [identify_platform] looks at.
    A netloc with no dot or one dot is its own base domain.  A netloc
    with more dots ends in a dot and two labels without a dot, and these
    two labels with the dot between them are the base domain.  In either
    case the base domain is a tail of the netloc with at most one dot. *)
Theorem base_domain_of_shape (domain : string) :
  let base := base_domain_of domain in
  Str.count "." base = Nat.min 1 (Str.count "." domain)
  ∧ (∃ pre, domain = pre +:+ base)
  ∧ ((Str.count "." domain ≤ 1)%nat → base = domain)
  ∧ ((2 ≤ Str.count "." domain)%nat →
       ∃ pre a b, domain = pre +:+ "." +:+ a +:+ "." +:+ b
         ∧ base = a +:+ "." +:+ b
         ∧ Str.count "." a = 0%nat ∧ Str.count "." b = 0%nat).
Proof.
  intros base. subst base. unfold base_domain_of.
  pose proof (split_length "." domain) as Hlen.
  pose proof (split_pieces "." domain) as Hp.
  pose proof (split_join "." domain) as Hj.
  set (parts := Str.split "." domain) in *.
  destruct (Str.count "." domain) as [|n] eqn:En.
  - rewrite Hlen. cbn. split; [exact En |]. split; [now exists "" |].
    split; [reflexivity | lia].
  - rewrite Hlen. cbn [Nat.ltb Nat.leb]. unfold Str.last_two. rewrite Hlen.
    replace (S (S n) - 2)%nat with n by lia.
    assert (List.length (take n parts) = n) as Hln by (rewrite length_take; lia).
    rewrite <- (take_drop n parts) in Hj, Hp.
    apply Forall_app in Hp as [_ Hp].
    assert (List.length (drop n parts) = 2%nat) as Hl2 by (rewrite length_drop; lia).
    destruct (drop n parts) as [|p [|q [|? ?]]]; try discriminate Hl2.
    apply Forall_cons in Hp as [Hcp Hp]. apply Forall_cons in Hp as [Hcq _].
    cbn [Str.join]. split; [| split; [| split]].
    + rewrite !count_app, Hcp, Hcq. reflexivity.
    + destruct (take n parts) as [|x l] eqn:Et.
      * exists "". now rewrite <- Hj.
      * rewrite join_app in Hj by discriminate. rewrite <- Hj.
        exists (Str.join "." (x :: l) +:+ "."). now rewrite append_assoc.
    + intros Hle. assert (n = 0%nat) as -> by lia.
      now rewrite <- Hj.
    + intros Hge. destruct (take n parts) as [|x l] eqn:Et; [cbn in Hln; lia |].
      rewrite join_app in Hj by discriminate.
      exists (Str.join "." (x :: l)), p, q. auto.
Qed.

Variable validators_url : string → bool.
Variable urlparse_netloc : string → string.

(** X16.  What [normalize_url] does with the platform given as youtube.
    A string that contains [youtu.be] becomes the watch URL of its last
    path segment cut at the first question mark: the string ends in the
    id and a rest, neither with a slash, what precedes the id is empty or
    ends in a slash, and the rest is empty or opens with the first
    question mark of the segment.  Otherwise a string that contains
    [/shorts/] becomes the watch URL of what lies between the first
    [/shorts/] and the next one after it, or the end, cut at the first
    question mark.  Any other string is only given a protocol. *)
Theorem normalize_url_youtube (url : string) :
  let normalized := normalize_url validators_url urlparse_netloc url (Some "youtube") in
  (Str.contains "youtu.be" url = true →
     ∃ video_id, normalized = watch_url video_id
       ∧ Str.count "/" video_id = 0%nat ∧ Str.count "?" video_id = 0%nat
       ∧ Str.contains video_id url = true
       ∧ ∃ pre rest, url = pre +:+ video_id +:+ rest
           ∧ (pre = "" ∨ ∃ p, pre = p +:+ "/")
           ∧ Str.count "/" rest = 0%nat
           ∧ (rest = "" ∨ ∃ r, rest = "?" +:+ r))
  ∧ (Str.contains "youtu.be" url = false → Str.contains "/shorts/" url = true →
       ∃ video_id, normalized = watch_url video_id ∧ Str.count "?" video_id = 0%nat
         ∧ ∃ pre rest tail, url = pre +:+ "/shorts/" +:+ (video_id +:+ rest) +:+ tail
             ∧ (∀ p q, url = p +:+ "/shorts/" +:+ q →
                  (String.length pre ≤ String.length p)%nat)
             ∧ (rest = "" ∨ ∃ r, rest = "?" +:+ r)
             ∧ (∀ p q, (video_id +:+ rest) +:+ tail = p +:+ "/shorts/" +:+ q →
                  (String.length (video_id +:+ rest) ≤ String.length p)%nat)
             ∧ (tail = "" ∨ ∃ r, tail = "/shorts/" +:+ r))
  ∧ (Str.contains "youtu.be" url = false → Str.contains "/shorts/" url = false →
       normalized = ensure_protocol url).
Proof.
  intros normalized. subst normalized. unfold normalize_url. cbn [falsy String.eqb Ascii.eqb].
  rewrite decide_True by reflexivity. split; [| split].
  - intros ->.
    destruct (split_last "/" url) as [Hc0 _].
    destruct (split_last_cut "/" url) as (pre & Hpre & Hends).
    set (segment := Str.last_piece (Str.split "/" url)) in *.
    destruct (split_first "?" segment) as [Hq0 _].
    destruct (split_first_cut "?" segment) as (post & Hpost & Hopens).
    set (video_id := Str.first_piece (Str.split "?" segment)) in *.
    rewrite Hpost, count_app in Hc0.
    exists video_id. split; [reflexivity |]. split; [lia |]. split; [exact Hq0 |].
    split; [rewrite Hpre, Hpost; apply contains_app |].
    exists pre, post. rewrite <- Hpost. split; [exact Hpre |].
    split; [exact Hends |]. split; [lia | exact Hopens].
  - intros Hy Hs. rewrite Hy, Hs.
    destruct (split_second "/shorts/" url) as (pre & tail & Hurl & Hmin & Hnext & Htail);
      [discriminate | exact Hs |].
    cbv zeta in Hurl, Hnext.
    set (piece := nth 1 (Str.split "/shorts/" url) "") in *.
    destruct (split_first "?" piece) as [Hq0 _].
    destruct (split_first_cut "?" piece) as (post & Hpost & Hopens).
    set (video_id := Str.first_piece (Str.split "?" piece)) in *.
    exists video_id. split; [reflexivity |]. split; [exact Hq0 |].
    exists pre, post, tail. rewrite <- Hpost. auto.
  - intros -> ->. reflexivity.
Qed.

End ParserShapes.

Section NormalizeTwice.
Import URLParser.

Variable validators_url : string → bool.
Variable urlparse_netloc : string → string.

Local Abbreviation identify := (identify_platform validators_url urlparse_netloc).
Local Abbreviation normalize := (normalize_url validators_url urlparse_netloc).

(** The last path segment of a watch URL, and where it is cut. *)
Lemma watch_url_last_segment video_id :
  Str.count "/" video_id = 0%nat →
  Str.first_piece (Str.split "?" (Str.last_piece (Str.split "/" (watch_url video_id))))
  = "watch".
Proof.
  intros H. unfold watch_url, Str.split. cbv [String.append].
  repeat (rewrite (split_go_char "/"); cbn [Ascii.eqb Bool.eqb]).
  rewrite (split_go_no_sep "/") by exact H.
  unfold Str.last_piece. cbn [List.last].
  unfold String.rev. cbn [String.rev_app]. cbv [String.append].
  repeat (rewrite (split_go_char "?"); cbn [Ascii.eqb Bool.eqb]).
  reflexivity.
Qed.

(** When the platform is youtube, a string with one of the two markers
    is rewritten to a watch URL, and that URL is never the string
    itself. *)
Lemma normalize_marked url platform :
  let effective := if falsy platform then (identify url).1 else platform in
  effective = Some "youtube" →
  Str.contains "youtu.be" url = true ∨ Str.contains "/shorts/" url = true →
  normalize url platform ≠ url.
Proof.
  intros effective Heff Hmark. unfold normalize_url. fold effective.
  rewrite decide_True by exact Heff.
  destruct (Str.contains "youtu.be" url) eqn:Hy.
  - set (video_id := Str.first_piece (Str.split "?" (Str.last_piece (Str.split "/" url)))).
    intros Heq.
    assert (Str.count "/" video_id = 0%nat) as Hc.
    { destruct (split_last "/" url) as [Hc0 _].
      destruct (split_first "?" (Str.last_piece (Str.split "/" url))) as [_ [post Hpost]].
      fold video_id in Hpost. rewrite Hpost, count_app in Hc0. lia. }
    assert (video_id = "watch") as Hv.
    { unfold video_id at 1. rewrite <- Heq. now apply watch_url_last_segment. }
    rewrite Hv in Heq. subst url. discriminate Hy.
  - destruct Hmark as [? | Hs]; [discriminate |]. rewrite Hs.
    destruct (split_second "/shorts/" url) as (pre & tail & Hurl & _);
      [discriminate | exact Hs |].
    cbv zeta in Hurl.
    set (piece := nth 1 (Str.split "/shorts/" url) "") in *.
    destruct (split_first "?" piece) as [_ [post Hpost]].
    set (video_id := Str.first_piece (Str.split "?" piece)) in *.
    intros Heq. unfold watch_url in Heq.
    rewrite Hurl in Heq. rewrite Hpost in Heq.
    rewrite <- (append_assoc pre) in Heq.
    assert (String.length (pre +:+ "/shorts/") ≤ String.length "https://www.youtube.com/watch?v=")%nat
      as Hlen.
    { apply (f_equal String.length) in Heq. rewrite !length_app in Heq.
      rewrite length_app. lia. }
    destruct (app_prefix _ _ _ _ Heq Hlen) as [e He].
    pose proof (contains_app pre "/shorts/" e) as Hc.
    rewrite <- append_assoc, <- He in Hc. discriminate Hc.
Qed.

(** C4 (amended).  A normalized URL is a fixed point of [normalize_url]
    exactly when the second call does not work with the platform
    youtube, passed in or derived, or the URL contains neither
    ["youtu.be"] nor ["/shorts/"]. *)
Theorem C4_normalize_fixed_point (url : string) (platform platform' : option string) :
  let r := normalize url platform in
  let effective := if falsy platform' then (identify r).1 else platform' in
  normalize r platform' = r ↔
  effective ≠ Some "youtube"
  ∨ (Str.contains "youtu.be" r = false ∧ Str.contains "/shorts/" r = false).
Proof.
  intros r effective. split.
  - intros Hfix. destruct (decide (effective = Some "youtube")) as [Heff | Hne]; [| now left].
    right. destruct (Str.contains "youtu.be" r) eqn:Hy.
    + exfalso. apply (normalize_marked r platform' Heff); [now left | exact Hfix].
    + split; [reflexivity |]. destruct (Str.contains "/shorts/" r) eqn:Hs; [| reflexivity].
      exfalso. apply (normalize_marked r platform' Heff); [now right | exact Hfix].
  - intros [Hne | [Hy Hs]].
    + apply normalize_effective; [exact Hne | apply normalize_has_protocol].
    + apply normalize_unmarked; auto. apply normalize_has_protocol.
Qed.

End NormalizeTwice.

Lemma C4_normalize_fixed_point_witness :
  let identify :=
    URLParser.identify_platform URLParser.validators_url_model URLParser.urlparse_netloc_model in
  let normalize :=
    URLParser.normalize_url URLParser.validators_url_model URLParser.urlparse_netloc_model in
  (normalize "https://youtu.be/dQw4w9WgXcQ" None = "https://www.youtube.com/watch?v=dQw4w9WgXcQ"
   ∧ normalize (normalize "https://youtu.be/dQw4w9WgXcQ" None) None
     = normalize "https://youtu.be/dQw4w9WgXcQ" None)
  ∧ ((identify (normalize "https://example.com/shorts/abc" None)).1 = Some "generic"
     ∧ Str.contains "/shorts/" (normalize "https://example.com/shorts/abc" None) = true
     ∧ normalize (normalize "https://example.com/shorts/abc" None) None
       = normalize "https://example.com/shorts/abc" None).
Proof.
  split.
  - split; [reflexivity |].
    apply (proj2 (C4_normalize_fixed_point URLParser.validators_url_model
             URLParser.urlparse_netloc_model "https://youtu.be/dQw4w9WgXcQ" None None)).
    right. split; reflexivity.
  - split; [reflexivity |]. split; [reflexivity |].
    apply (proj2 (C4_normalize_fixed_point URLParser.validators_url_model
             URLParser.urlparse_netloc_model "https://example.com/shorts/abc" None None)).
    left. vm_compute. discriminate.
Defined.


Section FormatOrder.
Import Formats.

Lemma collect_has_id formats :
  Forall (λ e, truthy_str (format_id e) = true) (collect formats).
Proof.
  induction formats as [|fmt rest IH]; cbn; [constructor |].
  destruct (truthy_str (raw_format_id fmt)) eqn:E; cbn; [| exact IH].
  constructor; [exact E | exact IH].
Qed.

Lemma collect_none_quality formats :
  Exists (λ e, quality e = None) (collect formats) →
  Exists (λ fmt, has_format_id fmt ∧ raw_quality fmt = Some None) formats.
Proof.
  induction formats as [|fmt rest IH]; cbn; [intros H; inversion H |].
  destruct (truthy_str (raw_format_id fmt)) eqn:E; cbn; [| auto].
  intros H. apply Exists_cons in H as [H | H]; [| auto].
  left. split; [exact E |]. cbn in H.
  now destruct (raw_quality fmt) as [[q|]|].
Qed.

(** X17.  When [_process_formats] returns, the list has one entry for
    each input entry with a format id and none without, every entry
    carries a format id, and the first entry has the highest quality of
    all, a number as soon as there is a second entry.  When it raises,
    at least two input entries have a format id and one of these holds
    ['quality': None].  An input without any usable entry, the empty list
    included, gives the empty list. *)
Theorem process_formats_best_first (formats : list RawFormat) :
  match _process_formats formats with
  | Some out =>
      List.length out = List.length (filter has_format_id formats)
      ∧ Forall (λ e, truthy_str (format_id e) = true) out
      ∧ (∀ best rest, out = best :: rest →
           Forall (λ e, ∃ qe qb,
                     quality e = Some qe ∧ quality best = Some qb ∧ qe ≤ qb) rest)
  | None =>
      (2 ≤ List.length (filter has_format_id formats))%nat
      ∧ Exists (λ fmt, has_format_id fmt ∧ raw_quality fmt = Some None) formats
  end
  ∧ (Forall (λ fmt, ¬ has_format_id fmt) formats → _process_formats formats = Some []).
Proof.
  unfold _process_formats. split.
  - destruct (sorted_reverse_keys quality (collect formats)) as [out|] eqn:E.
    + apply sorted_reverse_keys_Some in E as (Hperm & Hs & _).
      split; [| split].
      * rewrite (Permutation_length Hperm), collect_filter_map. apply length_fmap.
      * rewrite Hperm. apply collect_has_id.
      * intros best rest ->. apply StronglySorted_inv in Hs as [_ Hall].
        eapply Forall_impl; [exact Hall |].
        intros e (qb & qe & Hb & He & Hle). exists qe, qb. auto.
    + apply sorted_reverse_keys_None in E as [Hlen Hex]. split.
      * rewrite collect_filter_map, length_fmap in Hlen. exact Hlen.
      * now apply collect_none_quality.
  - intros Hnone.
    assert (collect formats = []) as Hc.
    { rewrite collect_filter_map.
      induction Hnone as [|fmt rest Hf Hrest IH]; [reflexivity |].
      rewrite filter_cons_False by exact Hf. exact IH. }
    now rewrite Hc.
Qed.

(** X19.  [_process_formats] on any input.  It raises exactly when at
    least two entries are kept and one of them holds ['quality': None].
    Otherwise it returns the kept entries, each mapped to its descriptor:
    the same entries, by descending quality, those of one quality in
    their input order. *)
Theorem process_formats_sorted (formats : list RawFormat) :
  let kept := format_entry_of <$> filter has_format_id formats in
  match _process_formats formats with
  | Some out =>
      ((List.length kept < 2)%nat ∨ Forall (λ e, is_Some (quality e)) kept)
      ∧ out ≡ₚ kept
      ∧ StronglySorted
          (λ a b, ∃ qa qb, quality a = Some qa ∧ quality b = Some qb ∧ qb ≤ qa) out
      ∧ (∀ q, filter (λ e, quality e = q) out = filter (λ e, quality e = q) kept)
  | None =>
      (2 ≤ List.length kept)%nat ∧ Exists (λ e, quality e = None) kept
  end.
Proof.
  intros kept. unfold _process_formats. subst kept. rewrite <- collect_filter_map.
  destruct (sorted_reverse_keys quality (collect formats)) as [out|] eqn:E.
  - split; [| now apply sorted_reverse_keys_Some].
    destruct (decide (List.length (collect formats) < 2)%nat) as [Hlt | Hge]; [now left |].
    right. apply Forall_forall. intros e He.
    destruct (quality e) as [q|] eqn:Hq; [now eexists |]. exfalso.
    assert (sorted_reverse_keys quality (collect formats) = None) as Hn.
    { apply sorted_reverse_keys_None. split; [lia |].
      apply Exists_exists. exists e. split; [exact He | exact Hq]. }
    congruence.
  - now apply sorted_reverse_keys_None.
Qed.

End FormatOrder.

(* ===================================================================== *)
(** * The result fields of a task under the routes *)
(* ===================================================================== *)

Section ResultFields.
Import DownloadManager App.

Variable validators_url : string → bool.
Variable urlparse_netloc : string → string.
Variable instance : PlatformFactory.HandlerClass → Handler.

Local Abbreviation serve_one := (serve validators_url urlparse_netloc instance).
Local Abbreviation serve_list := (serve_all validators_url urlparse_netloc instance).

(** What a step of a running executor does to the result fields of its
    own task: nothing, or it ends completed with the error untouched, or
    it ends failed with the file path untouched. *)
Lemma thread_step_own now timestamp dir th ts t :
  ts !! th_task th = Some t →
  ∃ t', (thread_step now timestamp dir th ts).1.2 !! th_task th = Some t'
    ∧ ((file_path t' = file_path t ∧ error t' = error t)
       ∨ ((thread_step now timestamp dir th ts).1.1 = Finished
          ∧ status t' = completed ∧ error t' = error t)
       ∨ ((thread_step now timestamp dir th ts).1.1 = Finished
          ∧ status t' = failed ∧ file_path t' = file_path t)).
Proof.
  intros Ht. unfold thread_step. destruct (th_pc th) as [| u f | u f o | msg |].
  - rewrite Ht. cbn. rewrite lookup_insert_eq. eexists. split; [reflexivity |]. now left.
  - destruct (extract_info (th_handler th) u) as [[i_title i_thumbnail | i_error] | msg].
    + destruct (default (Some "video") i_title) as [name|].
      * rewrite Ht. cbn. rewrite lookup_insert_eq. eexists. split; [reflexivity |]. now left.
      * cbn. rewrite Ht. eexists. split; [reflexivity |]. now left.
    + rewrite Ht. cbn. rewrite lookup_insert_eq. eexists. split; [reflexivity |].
      right. right. cbn. auto.
    + cbn. rewrite Ht. eexists. split; [reflexivity |]. now left.
  - destruct (download (th_handler th) u o f) as [[r_file_path | r_error] | msg].
    + rewrite Ht. cbn. rewrite lookup_insert_eq. eexists. split; [reflexivity |].
      right. left. cbn. auto.
    + rewrite Ht. cbn. rewrite lookup_insert_eq. eexists. split; [reflexivity |].
      right. right. cbn. auto.
    + cbn. rewrite Ht. eexists. split; [reflexivity |]. now left.
  - rewrite Ht. cbn. rewrite lookup_insert_eq. eexists. split; [reflexivity |].
    right. right. cbn. auto.
  - cbn. rewrite Ht. eexists. split; [reflexivity |]. now left.
Qed.

Lemma not_is_Some_None {A} : ¬ is_Some (@None A).
Proof. intros [? ?]. discriminate. Qed.

Lemma tick_results_match m i now timestamp :
  NoDup (th_task <$> threads m) → results_match m →
  results_match (step m (ThreadStep i now timestamp)).
Proof.
  intros Hnd Hm. cbn. destruct (threads m !! i) as [th|] eqn:Ei; [| exact Hm].
  pose proof (thread_step_frame now timestamp (download_dir m) th (tasks m))
    as (Hiso & Hdom & _).
  pose proof (thread_step_own now timestamp (download_dir m) th (tasks m)) as Hown.
  destruct (decide (th_pc th = Finished)) as [Hfin | Hrun].
  { rewrite (finished_stays _ _ _ _ _ Hfin). cbn.
    rewrite <- Hfin, at_pc_same, list_insert_id by exact Ei.
    intros key t Hk. exact (Hm key t Hk). }
  destruct (thread_step _ _ _ _ _) as [[pc ts'] log]. cbn in *.
  intros key t' Hk. cbn in *. destruct (decide (key = th_task th)) as [-> | Hne].
  - destruct (tasks m !! th_task th) as [t|] eqn:Et.
    + destruct (Hm _ _ Et) as (_ & _ & Hidle).
      destruct (Hidle th) as [Hf He]; [apply list_elem_of_lookup; eauto | reflexivity | exact Hrun |].
      destruct (Hown t eq_refl) as (t'' & Ht'' & Hcase).
      rewrite Hk in Ht''. injection Ht'' as <-.
      assert (∀ th', th' ∈ <[i := at_pc pc th]> (threads m) →
                th_task th' = th_task th → th_pc th' ≠ Finished → pc ≠ Finished) as Honly.
      { intros th' Hin Htid Hpc.
        apply list_elem_of_lookup in Hin as [j Hj].
        apply list_lookup_insert_Some in Hj as [(-> & <- & _) | (Hij & Hj)]; [exact Hpc |].
        exfalso. apply Hij.
        eapply (NoDup_lookup _ i j (th_task th) Hnd).
        - now rewrite list_lookup_fmap, Ei.
        - now rewrite list_lookup_fmap, Hj, <- Htid. }
      destruct Hcase as [[Hf' He'] | [(-> & Hst & He') | (-> & Hst & Hf')]].
      * rewrite Hf', He', Hf, He.
        repeat split; auto; intros Hs; now apply not_is_Some_None in Hs.
      * rewrite He', He. split; [auto |]. split; [intros Hs; now apply not_is_Some_None in Hs |].
        intros th' Hin Htid Hpc. now destruct (Honly th' Hin Htid Hpc).
      * rewrite Hf', Hf. split; [intros Hs; now apply not_is_Some_None in Hs |].
        split; [auto |].
        intros th' Hin Htid Hpc. now destruct (Honly th' Hin Htid Hpc).
    + exfalso. apply (@not_is_Some_None Task). rewrite <- Et. apply Hdom. eauto.
  - rewrite Hiso in Hk by exact Hne. destruct (Hm _ _ Hk) as (H1 & H2 & H3).
    split; [exact H1 |]. split; [exact H2 |].
    intros th' Hin Htid Hpc. apply (H3 th'); [| exact Htid | exact Hpc].
    apply list_elem_of_lookup in Hin as [j Hj].
    apply list_lookup_insert_Some in Hj as [(-> & <- & _) | (Hij & Hj)].
    + cbn in Htid. congruence.
    + apply list_elem_of_lookup. eauto.
Qed.

Lemma post_cancel_manager now task_id m :
  (post_cancel now task_id m).2 = (cancel_task now task_id m).2.
Proof. unfold post_cancel. now destruct (cancel_task now task_id m) as [[|] m']. Qed.

Lemma cancel_results_match now task_id m :
  results_match m → results_match (post_cancel now task_id m).2.
Proof.
  intros Hm. rewrite post_cancel_manager. unfold cancel_task.
  destruct (tasks m !! task_id) as [t|] eqn:Et; [| exact Hm].
  case_bool_decide as Hs; [| exact Hm]. cbn.
  intros key t' Hk. cbn in *. destruct (decide (key = task_id)) as [-> | Hne].
  - rewrite lookup_insert_eq in Hk. injection Hk as <-. cbn.
    destruct (Hm _ _ Et) as (H1 & H2 & H3).
    split; [| split].
    + intros Hfp. exfalso. rewrite (H1 Hfp) in Hs. revert Hs. refute_membership.
    + intros He. exfalso. rewrite (H2 He) in Hs. revert Hs. refute_membership.
    + exact H3.
  - rewrite lookup_insert_ne in Hk by congruence. exact (Hm _ _ Hk).
Qed.

Lemma post_download_results_match task_id now now' data m :
  results_match m →
  results_match (post_download validators_url urlparse_netloc instance
                   task_id now now' data m).2.
Proof.
  intros Hm. unfold post_download.
  destruct (data ≫= body_url) as [url_|]; [| exact Hm].
  destruct (URLParser.validate_url validators_url url_); cbn [negb]; [| exact Hm].
  generalize (URLParser.identify_platform validators_url urlparse_netloc url_).1.
  intros p.
  generalize (URLParser.normalize_url validators_url urlparse_netloc url_ p). intros u.
  unfold create_task, start_download. cbn. rewrite lookup_insert_eq. cbn.
  intros key t' Hk. cbn in *. destruct (decide (key = task_id)) as [-> | Hne].
  - rewrite lookup_insert_eq in Hk. injection Hk as <-. cbn.
    repeat split; auto; intros Hs; now apply not_is_Some_None in Hs.
  - rewrite !lookup_insert_ne in Hk by congruence.
    destruct (Hm _ _ Hk) as (H1 & H2 & H3).
    split; [exact H1 |]. split; [exact H2 |].
    intros th' Hin Htid Hpc. apply (H3 th'); [| exact Htid | exact Hpc].
    apply elem_of_app in Hin as [Hin | Hin]; [exact Hin |].
    apply list_elem_of_singleton in Hin as ->. cbn in Htid. congruence.
Qed.

Lemma serve_nodup m r requests :
  NoDup ((th_task <$> threads m) ++ uuids (r :: requests)) →
  NoDup ((th_task <$> threads (serve_one m r)) ++ uuids requests).
Proof.
  intros Hnd. destruct r as [tid now now' data | now tid | i now timestamp]; cbn.
  - change (uuids (PostDownload tid now now' data :: requests))
      with (tid :: uuids requests) in Hnd.
    destruct (post_download_threads validators_url urlparse_netloc instance
                tid now now' data m) as [-> | ->].
    + rewrite <- Permutation_middle in Hnd. now apply NoDup_cons in Hnd as [_ ?].
    + now rewrite <- app_assoc.
  - now rewrite post_cancel_threads.
  - pose proof (tick_threads m i now timestamp) as Ht. cbn in Ht. now rewrite Ht.
Qed.

Lemma serve_all_results_match requests :
  ∀ m, NoDup ((th_task <$> threads m) ++ uuids requests) →
       results_match m → results_match (serve_list m requests).
Proof.
  induction requests as [|r requests IH]; intros m Hnd Hm; [exact Hm |].
  cbn. apply IH; [now apply serve_nodup |].
  destruct r as [tid now now' data | now tid | i now timestamp]; cbn.
  - now apply post_download_results_match.
  - now apply cancel_results_match.
  - apply tick_results_match; [| exact Hm].
    apply NoDup_app in Hnd as [Hnd _]. exact Hnd.
Qed.

Lemma serve_ok m r : store_ok (tasks m) → store_ok (tasks (serve_one m r)).
Proof.
  intros Hs. destruct r as [tid now now' data | now tid | i now timestamp]; cbn.
  - unfold post_download.
    destruct (data ≫= body_url) as [url_|]; [| exact Hs].
    destruct (URLParser.validate_url validators_url url_); cbn [negb]; [| exact Hs].
    generalize (URLParser.identify_platform validators_url urlparse_netloc url_).1.
    intros p.
    generalize (URLParser.normalize_url validators_url urlparse_netloc url_ p). intros u.
    set (h := instance (PlatformFactory.create_handler p)).
    change (store_ok (tasks (run m [CreateTask tid now u p (data ≫= body_format_id);
                                    StartDownload now' tid h]))).
    now apply run_ok.
  - rewrite post_cancel_manager. exact (step_ok m (CancelTask now tid) Hs).
  - exact (step_ok m (ThreadStep i now timestamp) Hs).
Qed.

Lemma serve_all_ok requests :
  ∀ m, store_ok (tasks m) → store_ok (tasks (serve_list m requests)).
Proof.
  induction requests as [|r requests IH]; intros m Hs; [exact Hs |].
  cbn. apply IH. now apply serve_ok.
Qed.

(** X18.  Under the routes, with no uuid drawn twice and starting from an
    empty manager, the result fields of every task tell its status: a file
    path is set exactly on completed tasks and an error exactly on failed
    ones, so a task in any other status, cancelled included, has
    neither. *)
Theorem app_result_fields (dir : string) (requests : list Request) :
  NoDup (uuids requests) →
  let m := serve_list (init dir) requests in
  ∀ key t, tasks m !! key = Some t →
    (is_Some (file_path t) ↔ status t = completed)
    ∧ (is_Some (error t) ↔ status t = failed).
Proof.
  intros Hnd m key t Hk.
  assert (results_match m) as Hr.
  { apply serve_all_results_match; [exact Hnd |].
    intros k t0 H. cbn in H. rewrite lookup_empty in H. discriminate. }
  assert (store_ok (tasks m)) as Hs
    by (apply serve_all_ok, store_ok_empty).
  destruct (Hr _ _ Hk) as (H1 & H2 & _).
  destruct (Hs _ _ Hk) as (_ & _ & Hc & Hf & _).
  split; split; auto; intros Hst; [now apply Hc | now apply Hf].
Qed.

End ResultFields.

Lemma app_result_fields_witness :
  let body url := Some {| App.body_url := Some url; App.body_format_id := None |} in
  let requests :=
    [ App.PostDownload "u1" 0 1 (body "https://youtu.be/dQw4w9WgXcQ")
    ; App.Tick 0 2 1700000000
    ; App.PostCancel 3 "u1"
    ; App.Tick 0 4 1700000000
    ; App.Tick 0 5 1700000000 ] in
  let m :=
    App.serve_all URLParser.validators_url_model URLParser.urlparse_netloc_model
      (λ _, DownloadManager.ok_handler) (DownloadManager.init "/downloads") requests in
  NoDup (App.uuids requests)
  ∧ ∃ t, DownloadManager.tasks m !! "u1" = Some t
      ∧ DownloadManager.status t = DownloadManager.completed
      ∧ is_Some (DownloadManager.file_path t).
Proof.
  intros body requests m.
  assert (NoDup (App.uuids requests)) as Hnd
    by (apply (bool_decide_unpack _); vm_compute; exact I).
  split; [exact Hnd |].
  assert (∃ t, DownloadManager.tasks m !! "u1" = Some t
               ∧ DownloadManager.status t = DownloadManager.completed)
    as (t & Ht & Hst) by (eexists; split; vm_compute; reflexivity).
  exists t. split; [exact Ht |]. split; [exact Hst |].
  apply (app_result_fields URLParser.validators_url_model URLParser.urlparse_netloc_model
           (λ _, DownloadManager.ok_handler) "/downloads" requests Hnd "u1" t Ht).
  exact Hst.
Defined.
